(** * k-out-of-n maintenance model: birth-death solver, availability, optimizer

    Shallow embedding of [maintenance.py], in two readings of its
    arithmetic.

    Exact arithmetic (the first part).  A finite float is an exact rational
    ([Q]); rounding and overflow are left out.  What IEEE 754 does where
    the program can leave the finite numbers is kept: a division by zero
    gives an infinity or a NaN (NumPy warns, it does not raise), infinities
    and NaN propagate through [+], [-], [*], and every comparison with a
    NaN is false.  This is the type [xnum].  This reading carries the
    statements that rounding cannot change: the shape of the loops, the
    recurrence, and inputs on which every operation of the program is
    exact.  It also carries, each marked "in exact arithmetic", the
    properties of the chain itself (a probability vector, monotone in the
    crew size, cold against warm standby), which the program's floats only
    approximate.

    Binary64 (the module [B64]).  Every float operation is rounded as the
    program's floats are, by the standard library's specification of
    IEEE 754 arithmetic, and the conversion of a Python int that is too
    large for a float raises [OverflowError].  Statements that rounding or
    overflow can change are made in this reading.

    Integers ([n], [m], [k]) are Python ints, modelled by [Z].  Python
    exceptions are modelled by the [Raise] constructor of [result] (by
    [Throw] of [B64.outcome]). *)

From Stdlib Require Import ZArith QArith Qminmax Lqa Lia List Sorted.
From Stdlib Require Import SpecFloat.
From stdpp Require Import base list sorting.

Local Open Scope Q_scope.

(** ** Python exceptions *)

Inductive exn : Set := ValueError | IndexError.

Inductive result (A : Type) : Type :=
| Ok (a : A)
| Raise (e : exn).
Arguments Ok {A} a.
Arguments Raise {A} e.

Definition bind {A B : Type} (r : result A) (f : A -> result B) : result B :=
  match r with
  | Ok a => f a
  | Raise e => Raise e
  end.

Notation "x <-- r ;; k" := (bind r (fun x => k))
  (at level 100, r at next level, right associativity).

(** A [for] loop whose body may raise. *)
Fixpoint for_each {A S : Type} (body : S -> A -> result S) (l : list A) (s : S)
  : result S :=
  match l with
  | [] => Ok s
  | a :: l' => s' <-- body s a ;; for_each body l' s'
  end.

(** ** Numbers *)

Module Num.

Definition Qltb (x y : Q) : bool := (Qnum x * QDen y <? Qnum y * QDen x)%Z.

(** A float: a finite value, an infinity, or not-a-number. *)
Inductive xnum : Set :=
| Fin (q : Q)
| PInf
| NInf
| NaN.

Definition of_int (z : Z) : xnum := Fin (inject_Z z).

Definition xopp (a : xnum) : xnum :=
  match a with
  | Fin q => Fin (- q)
  | PInf => NInf
  | NInf => PInf
  | NaN => NaN
  end.

Definition xadd (a b : xnum) : xnum :=
  match a, b with
  | NaN, _ | _, NaN => NaN
  | Fin x, Fin y => Fin (x + y)
  | PInf, NInf | NInf, PInf => NaN
  | PInf, _ | _, PInf => PInf
  | NInf, _ | _, NInf => NInf
  end.

Definition xsub (a b : xnum) : xnum :=
  match a, b with
  | Fin x, Fin y => Fin (x - y)
  | _, _ => xadd a (xopp b)
  end.

(** The infinity of the sign of [s], or NaN when [s] is zero. *)
Definition inf_of_sign (s : Q) : xnum :=
  if Qltb 0 s then PInf else if Qltb s 0 then NInf else NaN.

Definition xmul (a b : xnum) : xnum :=
  match a, b with
  | NaN, _ | _, NaN => NaN
  | Fin x, Fin y => Fin (x * y)
  | Fin x, PInf | PInf, Fin x => inf_of_sign x
  | Fin x, NInf | NInf, Fin x => inf_of_sign (- x)
  | PInf, PInf | NInf, NInf => PInf
  | PInf, NInf | NInf, PInf => NInf
  end.

(** Division.  A finite zero divisor is the positive zero (a sum that
    starts from [1.0] is never the negative zero), so [x / 0] has the sign
    of [x] and [0 / 0] is NaN. *)
Definition xdiv (a b : xnum) : xnum :=
  match a, b with
  | NaN, _ | _, NaN => NaN
  | Fin x, Fin y => if Qeq_bool y 0 then inf_of_sign x else Fin (x / y)
  | Fin _, (PInf | NInf) => Fin 0
  | PInf, Fin y => if Qltb y 0 then NInf else PInf
  | NInf, Fin y => if Qltb y 0 then PInf else NInf
  | (PInf | NInf), (PInf | NInf) => NaN
  end.

(** [a < b]; false as soon as one side is NaN. *)
Definition xlt (a b : xnum) : bool :=
  match a, b with
  | NaN, _ | _, NaN => false
  | Fin x, Fin y => Qltb x y
  | NInf, (Fin _ | PInf) => true
  | Fin _, PInf => true
  | _, _ => false
  end.

Definition is_finite (a : xnum) : bool :=
  match a with Fin _ => true | _ => false end.

End Num.
Import Num.

(** ** Arrays *)

(** [np.zeros(len)] *)
Definition zeros (len : nat) : list Q := replicate len 0.

(** [a[i]] for an index that is in range (all indices of the program are). *)
Definition get (a : list Q) (i : nat) : Q := default 0 (a !! i).

(** [np.sum] of an array of finite values, and of an array of floats.
    Without rounding the order of the additions does not matter. *)
Definition sumQ (a : list Q) : Q := foldr Qplus 0 a.
Definition xsum (a : list xnum) : xnum := foldr xadd (Fin 0) a.

(** [a[:stop]], with Python's reading of a negative [stop]. *)
Definition slice_to {A : Type} (a : list A) (stop : Z) : list A :=
  if (0 <=? stop)%Z then take (Z.to_nat stop) a
  else take (length a - Z.to_nat (- stop)) a.

(** ** The rate model and the solver *)

Section Solver.

Variables (mu gamma : Q) (warm_standby : bool) (n m k : Z).

(** Body of the first loop: writes [birth_rates[i]] and [death_rates[i]]. *)
Definition rates_step (st : list Q * list Q) (i : nat) : list Q * list Q :=
  let '(birth_rates, death_rates) := st in
  let birth_rates :=
    <[i := inject_Z (Z.min (Z.of_nat i) k) * gamma]> birth_rates in
  let working := (n - Z.of_nat i)%Z in
  let death_rates :=
    if warm_standby then <[i := inject_Z working * mu]> death_rates
    else if (working >=? m)%Z then <[i := inject_Z m * mu]> death_rates
         else <[i := 0]> death_rates in
  (birth_rates, death_rates).

Definition rate_vectors (states : nat) : list Q * list Q :=
  fold_left rates_step (seq 0 states) (zeros states, zeros states).

(** Body of the second loop: writes [pi[i]]. *)
Definition pi_step (birth_rates death_rates : list Q) (pi : list Q) (i : nat)
  : list Q :=
  if Qltb 0 (get birth_rates i)
  then <[i := get pi (i - 1) * get death_rates (i - 1) / get birth_rates i]> pi
  else <[i := 0]> pi.

(** The vector [pi] before normalisation; [states] is at least 1. *)
Definition unnormalized (birth_rates death_rates : list Q) (states : nat)
  : list Q :=
  fold_left (pi_step birth_rates death_rates)
            (seq 1 (states - 1)) (<[0%nat := 1]> (zeros states)).

(** [pi /= pi_sum] *)
Definition normalize (pi : list Q) : list xnum :=
  let pi_sum := sumQ pi in
  map (fun x => xdiv (Fin x) (Fin pi_sum)) pi.

Definition birth_death_stationary_distribution : result (list xnum) :=
  let states := (n + 1)%Z in
  if (states <? 0)%Z then Raise ValueError           (* np.zeros(states) *)
  else
    let '(birth_rates, death_rates) := rate_vectors (Z.to_nat states) in
    if (states =? 0)%Z then Raise IndexError         (* pi[0] = 1.0 *)
    else
      Ok (normalize (unnormalized birth_rates death_rates (Z.to_nat states))).

Definition system_availability : result xnum :=
  pi <-- birth_death_stationary_distribution ;;
  let max_failed_allowed := (n - m)%Z in
  Ok (xsum (slice_to pi (max_failed_allowed + 1))).

End Solver.

(** ** The optimizer *)

Section Optimizer.

Variables (mu gamma : Q) (warm_standby : bool) (m : Z).
Variables (component_cost repairman_cost downtime_cost : Q).

(** The running state [(best_n, best_k, min_cost)]. *)
Definition best : Type := option Z * option Z * xnum.

(** Cost of the configuration [(n, k)]. *)
Definition config_cost (n k : Z) : result xnum :=
  availability <-- system_availability mu gamma warm_standby n m k ;;
  Ok (xadd (xadd (xmul (Fin component_cost) (of_int n))
                 (xmul (Fin repairman_cost) (of_int k)))
           (xmul (Fin downtime_cost) (xsub (Fin 1) availability))).

(** Body of the inner loop. *)
Definition inner_step (n : Z) (st : best) (k : Z) : result best :=
  let '(best_n, best_k, min_cost) := st in
  if (m >? n)%Z then Ok st                           (* continue *)
  else
    cost <-- config_cost n k ;;
    if xlt cost min_cost then Ok (Some n, Some k, cost) else Ok st.

Definition outer_step (k_range : list Z) (st : best) (n : Z) : result best :=
  for_each (inner_step n) k_range st.

Definition optimize_components_and_repairmen (n_range k_range : list Z)
  : result best :=
  for_each (outer_step k_range) n_range (None, None, PInf).

End Optimizer.


(** ** Closed forms of the two loops *)

Section Closed.

Variables (mu gamma : Q) (warm_standby : bool) (n m k : Z).

(** Value written to [birth_rates[i]]. *)
Definition birth (i : nat) : Q := inject_Z (Z.min (Z.of_nat i) k) * gamma.

(** Value written to [death_rates[i]]. *)
Definition death (i : nat) : Q :=
  if warm_standby then inject_Z (n - Z.of_nat i) * mu
  else if (n - Z.of_nat i >=? m)%Z then inject_Z m * mu else 0.

(** Value written to [pi[i]] (before normalisation). *)
Fixpoint mass (i : nat) : Q :=
  match i with
  | O => 1
  | S j => if Qltb 0 (birth (S j)) then mass j * death j / birth (S j) else 0
  end.

End Closed.

(** The vector [pi] of the solver just before [pi /= pi_sum]. *)
Definition recurrence_vector (mu gamma : Q) (warm_standby : bool) (n m k : Z)
  : list Q :=
  let states := Z.to_nat (n + 1) in
  let '(birth_rates, death_rates) :=
    rate_vectors mu gamma warm_standby n m k states in
  unnormalized birth_rates death_rates states.

(** Ratio of two consecutive entries of the recurrence vector. *)
Definition ratio (mu gamma : Q) (warm_standby : bool) (n m k : Z) (j : nat)
  : Q :=
  if Qltb 0 (birth gamma k (S j))
  then death mu warm_standby n m j / birth gamma k (S j)
  else 0.

(** The normalised vector when the sum is not zero. *)
Definition scaled (pi : list Q) : list Q := map (fun x => x / sumQ pi) pi.

(** The pairs [(n, k)] in the order in which the two nested loops of the
    optimizer visit them. *)
Definition grid (n_range k_range : list Z) : list (Z * Z) :=
  flat_map (fun n => map (pair n) k_range) n_range.

(** Ascending [n], then ascending [k]. *)
Definition lex_lt (p q : Z * Z) : Prop :=
  (fst p < fst q)%Z \/ (fst p = fst q /\ (snd p < snd q)%Z).

(** The inputs the specification calls valid. *)
Definition valid (mu gamma : Q) (n m k : Z) : Prop :=
  0 <= mu /\ 0 <= gamma /\ (1 <= n)%Z /\ (1 <= m <= n)%Z /\ (1 <= k)%Z.

(** * The program in binary64 *)

(** The same program, with every float operation rounded as IEEE 754
    binary64 does (round to nearest, ties to even; overflow to an
    infinity; NaN from [inf * 0], [inf / inf], [inf - inf], [0 / 0]).
    The operations are those of the standard library's [SpecFloat] at
    precision 53 and maximal exponent 1024.  Converting a Python int to a
    float raises [OverflowError] when the int is too large. *)

Module B64.

Definition float : Set := spec_float.

Definition prec : Z := 53.
Definition emax : Z := 1024.

Definition add : float -> float -> float := SFadd prec emax.
Definition sub : float -> float -> float := SFsub prec emax.
Definition mul : float -> float -> float := SFmul prec emax.
Definition div : float -> float -> float := SFdiv prec emax.
Definition ltb : float -> float -> bool := SFltb.
Definition leb : float -> float -> bool := SFleb.
Definition eqb : float -> float -> bool := SFeqb.

Definition zero : float := S754_zero false.
Definition neg_zero : float := S754_zero true.
Definition one : float := S754_finite false 4503599627370496 (-52).
Definition inf : float := S754_infinity false.

(** Neither an infinity nor a NaN. *)
Definition is_finite (x : float) : bool :=
  match x with
  | S754_zero _ | S754_finite _ _ _ => true
  | S754_infinity _ | S754_nan => false
  end.

Definition is_nan (x : float) : bool :=
  match x with S754_nan => true | _ => false end.

Definition is_zero (x : float) : bool :=
  match x with S754_zero _ => true | _ => false end.

(** [2 ** e] and the float written [num / den] in decimal notation (for
    instance [0.01] is [decimal 1 100]); used to write inputs. *)
Definition pow2 (e : Z) : float := binary_normalize prec emax 1 e false.
Definition decimal (num den : Z) : float :=
  div (binary_normalize prec emax num 0 false)
      (binary_normalize prec emax den 0 false).

(** ** Exceptions *)

Inductive exn : Set := ValueError | IndexError | OverflowError.

Inductive outcome (A : Type) : Type :=
| Return (a : A)
| Throw (e : exn).
Arguments Return {A} a.
Arguments Throw {A} e.

Definition bind {A B : Type} (r : outcome A) (f : A -> outcome B)
  : outcome B :=
  match r with
  | Return a => f a
  | Throw e => Throw e
  end.

Notation "x <~ r ;; k" := (bind r (fun x => k))
  (at level 100, r at next level, right associativity).

Fixpoint for_each {A S : Type} (body : S -> A -> outcome S) (l : list A)
  (s : S) : outcome S :=
  match l with
  | [] => Return s
  | a :: l' => s' <~ body s a ;; for_each body l' s'
  end.

(** [float(z)] for a Python int [z]: the nearest float, or
    [OverflowError] when that would be an infinity. *)
Definition of_int (z : Z) : outcome float :=
  match binary_normalize prec emax z 0 false with
  | S754_infinity _ => Throw OverflowError
  | f => Return f
  end.

(** [z * x] for a Python int [z] and a float [x]. *)
Definition int_times (z : Z) (x : float) : outcome float :=
  f <~ of_int z ;; Return (mul f x).

(** ** Arrays *)

Definition zeros (len : nat) : list float := replicate len zero.

Definition get (a : list float) (i : nat) : float := default zero (a !! i).

(** [np.sum].  NumPy adds an array of fewer than 8 entries from left to
    right, starting from [-0.0].  An array of 8 to 128 entries is added
    with 8 running sums [r[j] = a[j] + a[8+j] + ...] over the full blocks
    of 8, combined as [((r0+r1)+(r2+r3))+((r4+r5)+(r6+r7))], and then the
    entries left over are added one by one.  A longer array is cut in two
    (at a multiple of 8) and the two sums are added.  The sum of an empty
    array is [0.0]. *)
Fixpoint unrolled_loop (r0 r1 r2 r3 r4 r5 r6 r7 : float) (a : list float)
  : float :=
  match a with
  | a0 :: a1 :: a2 :: a3 :: a4 :: a5 :: a6 :: a7 :: a' =>
      unrolled_loop (add r0 a0) (add r1 a1) (add r2 a2) (add r3 a3)
                    (add r4 a4) (add r5 a5) (add r6 a6) (add r7 a7) a'
  | _ =>
      fold_left add a
                (add (add (add r0 r1) (add r2 r3))
                     (add (add r4 r5) (add r6 r7)))
  end.

Definition unrolled_sum (a : list float) : float :=
  match a with
  | a0 :: a1 :: a2 :: a3 :: a4 :: a5 :: a6 :: a7 :: a' =>
      unrolled_loop a0 a1 a2 a3 a4 a5 a6 a7 a'
  | _ => fold_left add a neg_zero
  end.

Fixpoint pairwise_sum (fuel : nat) (a : list float) : float :=
  let len := length a in
  if (len <=? 128)%nat then unrolled_sum a
  else
    match fuel with
    | O => unrolled_sum a
    | S fuel' =>
        let half := (len / 2 - (len / 2) mod 8)%nat in
        add (pairwise_sum fuel' (take half a))
            (pairwise_sum fuel' (drop half a))
    end.

Definition np_sum (a : list float) : float :=
  match a with
  | [] => zero
  | _ => pairwise_sum (length a) a
  end.

(** [a[:stop]] *)
Definition slice_to {A : Type} (a : list A) (stop : Z) : list A :=
  if (0 <=? stop)%Z then take (Z.to_nat stop) a
  else take (length a - Z.to_nat (- stop)) a.

(** ** The rate model and the solver *)

Section Solver.

Variables (mu gamma : float) (warm_standby : bool) (n m k : Z).

Definition rates_step (st : list float * list float) (i : nat)
  : outcome (list float * list float) :=
  let '(birth_rates, death_rates) := st in
  b <~ int_times (Z.min (Z.of_nat i) k) gamma ;;
  let birth_rates := <[i := b]> birth_rates in
  let working := (n - Z.of_nat i)%Z in
  if warm_standby then
    d <~ int_times working mu ;;
    Return (birth_rates, <[i := d]> death_rates)
  else if (working >=? m)%Z then
    d <~ int_times m mu ;;
    Return (birth_rates, <[i := d]> death_rates)
  else Return (birth_rates, <[i := zero]> death_rates).

Definition rate_vectors (states : nat) : outcome (list float * list float) :=
  for_each rates_step (seq 0 states) (zeros states, zeros states).

Definition pi_step (birth_rates death_rates : list float) (pi : list float)
  (i : nat) : list float :=
  if ltb zero (get birth_rates i)
  then <[i := div (mul (get pi (i - 1)) (get death_rates (i - 1)))
                  (get birth_rates i)]> pi
  else <[i := zero]> pi.

Definition unnormalized (birth_rates death_rates : list float) (states : nat)
  : list float :=
  fold_left (pi_step birth_rates death_rates)
            (seq 1 (states - 1)) (<[0%nat := one]> (zeros states)).

(** [pi /= pi_sum] *)
Definition normalize (pi : list float) : list float :=
  let pi_sum := np_sum pi in
  map (fun x => div x pi_sum) pi.

(** The vector [pi] just before [pi /= pi_sum]. *)
Definition recurrence_vector : outcome (list float) :=
  let states := (n + 1)%Z in
  if (states <? 0)%Z then Throw ValueError
  else
    rates <~ rate_vectors (Z.to_nat states) ;;
    if (states =? 0)%Z then Throw IndexError
    else Return (unnormalized (fst rates) (snd rates) (Z.to_nat states)).

Definition birth_death_stationary_distribution : outcome (list float) :=
  pi <~ recurrence_vector ;; Return (normalize pi).

Definition system_availability : outcome float :=
  pi <~ birth_death_stationary_distribution ;;
  let max_failed_allowed := (n - m)%Z in
  Return (np_sum (slice_to pi (max_failed_allowed + 1))).

End Solver.

(** ** The optimizer *)

Section Optimizer.

Variables (mu gamma : float) (warm_standby : bool) (m : Z).
Variables (component_cost repairman_cost downtime_cost : float).

Definition best : Type := option Z * option Z * float.

Definition config_cost (n k : Z) : outcome float :=
  availability <~ system_availability mu gamma warm_standby n m k ;;
  fn <~ of_int n ;;
  fk <~ of_int k ;;
  Return (add (add (mul component_cost fn) (mul repairman_cost fk))
              (mul downtime_cost (sub one availability))).

Definition inner_step (n : Z) (st : best) (k : Z) : outcome best :=
  let '(best_n, best_k, min_cost) := st in
  if (m >? n)%Z then Return st
  else
    cost <~ config_cost n k ;;
    if ltb cost min_cost then Return (Some n, Some k, cost) else Return st.

Definition outer_step (k_range : list Z) (st : best) (n : Z) : outcome best :=
  for_each (inner_step n) k_range st.

Definition optimize_components_and_repairmen (n_range k_range : list Z)
  : outcome best :=
  for_each (outer_step k_range) n_range (None, None, inf).

End Optimizer.

Section SearchInvariant.

Variables (mu gamma : float) (warm_standby : bool) (m : Z).
Variables (component_cost repairman_cost downtime_cost : float).

Local Abbreviation cost :=
  (config_cost mu gamma warm_standby m
               component_cost repairman_cost downtime_cost).

(** What the running state is after the pairs [seen] have been visited:
    no visited feasible pair is cheaper than [min_cost]; and either nothing
    was selected yet, or the selected pair was visited, costs [min_cost],
    below [inf], and every feasible pair visited before it has a cost that
    is NaN or strictly larger. *)
Definition scanned (seen : list (Z * Z)) (st : best) : Prop :=
  let '(best_n, best_k, min_cost) := st in
  (forall n k c, In (n, k) seen -> (m <= n)%Z -> cost n k = Return c ->
                 ltb c min_cost = false)
  /\ ((best_n = None /\ best_k = None /\ min_cost = inf)
      \/ exists n k before after,
          best_n = Some n /\ best_k = Some k
          /\ seen = before ++ (n, k) :: after
          /\ (m <= n)%Z
          /\ cost n k = Return min_cost
          /\ ltb min_cost inf = true
          /\ forall n' k' c',
               In (n', k') before -> (m <= n')%Z ->
               cost n' k' = Return c' ->
               is_nan c' = true \/ ltb min_cost c' = true).

End SearchInvariant.

(** The inputs the specification calls valid. *)
Definition valid (mu gamma : float) (n m k : Z) : Prop :=
  leb zero mu = true /\ leb zero gamma = true
  /\ (1 <= n)%Z /\ (1 <= m <= n)%Z /\ (1 <= k)%Z.

(** Not below zero: a zero, a positive number, [+inf], or NaN. *)
Definition not_negative (x : float) : Prop := ltb x zero = false.

(** Sign bit clear, or NaN. *)
Definition unsigned (x : float) : Prop :=
  match x with
  | S754_nan => True
  | S754_zero s | S754_infinity s | S754_finite s _ _ => s = false
  end.

(** A zero or NaN. *)
Definition zero_or_nan (x : float) : Prop :=
  match x with
  | S754_nan | S754_zero _ => True
  | _ => False
  end.

(** A key that orders the floats other than NaN as [<] does: first the
    class (negative infinity, negative, zero, positive, positive
    infinity), then the exponent, then the mantissa. *)
Definition key (x : float) : Z * Z * Z :=
  match x with
  | S754_nan | S754_zero _ => (0, 0, 0)%Z
  | S754_infinity false => (2, 0, 0)%Z
  | S754_infinity true => (-2, 0, 0)%Z
  | S754_finite false mx ex => (1, ex, Z.pos mx)%Z
  | S754_finite true mx ex => (-1, - ex, Z.neg mx)%Z
  end.

Definition key_lt (a b : Z * Z * Z) : Prop :=
  let '(a1, a2, a3) := a in
  let '(b1, b2, b3) := b in
  (a1 < b1 \/ (a1 = b1 /\ (a2 < b2 \/ (a2 = b2 /\ a3 < b3))))%Z.

End B64.

(** * Proofs *)


(** ** Evaluation on concrete inputs *)

Example warm_2_2_1 :
  system_availability 1 1 true 2 2 1 = Ok (Fin (1 # 5)).
Proof. vm_compute. reflexivity. Qed.

Example negative_states_raise :
  birth_death_stationary_distribution 1 1 true (-2) 1 1 = Raise ValueError
  /\ birth_death_stationary_distribution 1 1 true (-1) 1 1 = Raise IndexError.
Proof. split; reflexivity. Qed.

(** [mu = 0.01], [gamma = 0.1], warm, [n = 5], [m = 3], [k = 2]: the
    availability is strictly between 0.9 and 1, and strictly above that of
    [n = m = 3], [k = 1]. *)
Example redundancy_scenario :
  exists a b : Q,
    system_availability (1 # 100) (1 # 10) true 5 3 2 = Ok (Fin a)
    /\ system_availability (1 # 100) (1 # 10) true 3 3 1 = Ok (Fin b)
    /\ 9 # 10 < a /\ a < 1 /\ b < a.
Proof.
  eexists. eexists. split; [vm_compute; reflexivity|].
  split; [vm_compute; reflexivity|].
  repeat split; vm_compute; reflexivity.
Qed.

Example optimizer_scenario :
  optimize_components_and_repairmen
    (1 # 100) (1 # 10) true 3 5 10 1000 [1; 2]%Z [1; 2]%Z
  = Ok (None, None, PInf).
Proof. vm_compute. reflexivity. Qed.

Lemma Qltb_lt (x y : Q) : Qltb x y = true <-> x < y.
Proof. unfold Qltb, Qlt. apply Z.ltb_lt. Qed.

Lemma Qltb_ge (x y : Q) : Qltb x y = false <-> y <= x.
Proof. unfold Qltb, Qle. apply Z.ltb_ge. Qed.

Lemma zeros_length len : length (zeros len) = len.
Proof. apply length_replicate. Qed.

Lemma zeros_S len : zeros (S len) = 0 :: zeros len.
Proof. reflexivity. Qed.

(** Writing position [length done] of an array whose tail is still zero. *)
Lemma insert_frontier (done : list Q) (rest : nat) (x : Q) :
  <[length done := x]> (done ++ zeros (S rest)) = (done ++ [x]) ++ zeros rest.
Proof.
  rewrite zeros_S, <- app_assoc. simpl.
  replace (length done) with (length done + 0)%nat at 1 by lia.
  rewrite insert_app_r. reflexivity.
Qed.

Section LoopInvariants.

Variables (mu gamma : Q) (warm_standby : bool) (n m k : Z).

Local Abbreviation brate := (birth gamma k).
Local Abbreviation drate := (death mu warm_standby n m).
Local Abbreviation pmass := (mass mu gamma warm_standby n m k).

Lemma rates_prefix (states j : nat) :
  (j <= states)%nat ->
  fold_left (rates_step mu gamma warm_standby n m k) (seq 0 j)
            (zeros states, zeros states)
  = (map brate (seq 0 j) ++ zeros (states - j),
     map drate (seq 0 j) ++ zeros (states - j)).
Proof.
  induction j as [|j IH]; intros Hj.
  - simpl. rewrite Nat.sub_0_r. reflexivity.
  - rewrite seq_S, fold_left_app, IH by lia. simpl.
    replace (states - j)%nat with (S (states - S j)) by lia.
    assert (Hb : length (map brate (seq 0 j)) = j)
      by (rewrite length_map, length_seq; reflexivity).
    assert (Hd : length (map drate (seq 0 j)) = j)
      by (rewrite length_map, length_seq; reflexivity).
    rewrite !map_app. simpl. f_equal.
    + rewrite <- Hb at 1. apply insert_frontier.
    + unfold death.
      destruct warm_standby; [|destruct (n - Z.of_nat j >=? m)%Z];
        rewrite <- Hd at 1; apply insert_frontier.
Qed.

Lemma rate_vectors_closed (states : nat) :
  rate_vectors mu gamma warm_standby n m k states
  = (map brate (seq 0 states), map drate (seq 0 states)).
Proof.
  unfold rate_vectors. rewrite rates_prefix by lia.
  rewrite Nat.sub_diag. simpl. rewrite !app_nil_r. reflexivity.
Qed.

Lemma get_map_seq (f : nat -> Q) (len i : nat) :
  (i < len)%nat -> get (map f (seq 0 len)) i = f i.
Proof.
  intros Hi. unfold get.
  change (map f (seq 0 len)) with (f <$> seq 0 len).
  rewrite list_lookup_fmap, lookup_seq_lt by lia. reflexivity.
Qed.

Lemma get_app_l (a b : list Q) (i : nat) :
  (i < length a)%nat -> get (a ++ b) i = get a i.
Proof. intros Hi. unfold get. rewrite lookup_app_l by lia. reflexivity. Qed.

Lemma pi_prefix (states j : nat) :
  (S j <= states)%nat ->
  fold_left (pi_step (map brate (seq 0 states)) (map drate (seq 0 states)))
            (seq 1 j) (<[0%nat := 1]> (zeros states))
  = map pmass (seq 0 (S j)) ++ zeros (states - S j).
Proof.
  induction j as [|j IH]; intros Hj.
  - destruct states as [|states]; [lia|]. simpl.
    rewrite Nat.sub_0_r. reflexivity.
  - rewrite seq_S, fold_left_app, IH by lia.
    replace (states - S j)%nat with (S (states - S (S j))) by lia.
    assert (Hm : length (map pmass (seq 0 (S j))) = S j)
      by (rewrite length_map, length_seq; reflexivity).
    rewrite (seq_S (S j)), map_app.
    change (map pmass [(0 + S j)%nat]) with [pmass (S j)].
    change (pmass (S j)) with
      (if Qltb 0 (brate (S j)) then pmass j * drate j / brate (S j) else 0).
    set (done := map pmass (seq 0 (S j))) in *.
    cbn [fold_left]. unfold pi_step.
    replace (1 + j - 1)%nat with j by lia. change (1 + j)%nat with (S j).
    rewrite !get_map_seq by lia.
    rewrite get_app_l by lia. unfold done. rewrite get_map_seq by lia.
    fold done.
    destruct (Qltb 0 (brate (S j)));
      rewrite <- Hm at 1; apply insert_frontier.
Qed.

Lemma unnormalized_closed (states : nat) :
  (1 <= states)%nat ->
  unnormalized (map brate (seq 0 states)) (map drate (seq 0 states)) states
  = map pmass (seq 0 states).
Proof.
  intros Hs. unfold unnormalized. rewrite pi_prefix by lia.
  replace (S (states - 1)) with states by lia.
  rewrite Nat.sub_diag. simpl. apply app_nil_r.
Qed.



(** The solver, in terms of the closed forms. *)
Lemma solver_closed :
  (0 <= n)%Z ->
  birth_death_stationary_distribution mu gamma warm_standby n m k
  = Ok (normalize (map pmass (seq 0 (Z.to_nat (n + 1))))).
Proof.
  intros Hn. unfold birth_death_stationary_distribution.
  destruct (Z.ltb_spec (n + 1) 0) as [?|_]; [lia|].
  rewrite rate_vectors_closed.
  destruct (Z.eqb_spec (n + 1) 0) as [?|_]; [lia|].
  rewrite unnormalized_closed by lia. reflexivity.
Qed.

End LoopInvariants.

(** ** Sums *)

Lemma sumQ_app (a b : list Q) : sumQ (a ++ b) == sumQ a + sumQ b.
Proof.
  induction a as [|x a IH]; simpl.
  - ring.
  - rewrite IH. ring.
Qed.

Lemma sumQ_nonneg (a : list Q) : Forall (fun x => 0 <= x) a -> 0 <= sumQ a.
Proof.
  induction 1 as [|x a Hx _ IH]; simpl.
  - apply Qle_refl.
  - lra.
Qed.

Lemma sumQ_zero (a : list Q) : Forall (fun x => x == 0) a -> sumQ a == 0.
Proof.
  induction 1 as [|x a Hx _ IH]; simpl.
  - reflexivity.
  - rewrite Hx, IH. ring.
Qed.

Lemma sumQ_scale (s : Q) (a : list Q) :
  sumQ (map (fun x => x / s) a) == sumQ a / s.
Proof.
  induction a as [|x a IH]; simpl.
  - unfold Qdiv. ring.
  - rewrite IH. unfold Qdiv. ring.
Qed.

Lemma xsum_Fin (a : list Q) : xsum (map Fin a) = Fin (sumQ a).
Proof.
  induction a as [|x a IH]; simpl.
  - reflexivity.
  - rewrite IH. reflexivity.
Qed.

Lemma Forall_map_seq (P : Q -> Prop) (f : nat -> Q) (len : nat) :
  (forall i, (i < len)%nat -> P (f i)) -> Forall P (map f (seq 0 len)).
Proof.
  intros H. apply List.Forall_forall. intros x Hx.
  apply in_map_iff in Hx. destruct Hx as [i [<- Hi]].
  apply in_seq in Hi. apply H. lia.
Qed.

(** ** Normalisation *)

Lemma normalize_scaled (pi : list Q) :
  ~ sumQ pi == 0 -> normalize pi = map Fin (scaled pi).
Proof.
  intros Hs. unfold normalize, scaled. rewrite map_map.
  apply map_ext. intros x. simpl.
  destruct (Qeq_bool (sumQ pi) 0) eqn:E; [|reflexivity].
  apply Qeq_bool_iff in E. contradiction.
Qed.

Lemma scaled_sum (pi : list Q) : ~ sumQ pi == 0 -> sumQ (scaled pi) == 1.
Proof.
  intros Hs. unfold scaled. rewrite sumQ_scale. field. exact Hs.
Qed.

Lemma scaled_length (pi : list Q) : length (scaled pi) = length pi.
Proof. apply length_map. Qed.

(** ** Signs of the rates and of the masses *)

Section Signs.

Variables (mu gamma : Q) (warm_standby : bool) (n m k : Z).

Local Abbreviation brate := (birth gamma k).
Local Abbreviation drate := (death mu warm_standby n m).
Local Abbreviation pmass := (mass mu gamma warm_standby n m k).

Hypothesis Hmu : 0 <= mu.
Hypothesis Hm : (0 <= m)%Z.

Lemma inject_Z_nonneg (z : Z) : (0 <= z)%Z -> 0 <= inject_Z z.
Proof. intros Hz. change 0 with (inject_Z 0). rewrite <- Zle_Qle. exact Hz. Qed.

Lemma death_nonneg (i : nat) : (Z.of_nat i <= n)%Z -> 0 <= drate i.
Proof.
  intros Hi. unfold death.
  destruct warm_standby; [|destruct (n - Z.of_nat i >=? m)%Z].
  - apply Qmult_le_0_compat; [apply inject_Z_nonneg; lia | exact Hmu].
  - apply Qmult_le_0_compat; [apply inject_Z_nonneg; lia | exact Hmu].
  - apply Qle_refl.
Qed.

Lemma mass_step (i : nat) :
  pmass (S i) =
  if Qltb 0 (brate (S i)) then pmass i * drate i / brate (S i) else 0.
Proof. reflexivity. Qed.

Lemma mass_nonneg (i : nat) : (Z.of_nat i <= n)%Z -> 0 <= pmass i.
Proof.
  induction i as [|i IH]; intros Hi.
  - simpl. lra.
  - rewrite mass_step. destruct (Qltb 0 (brate (S i))) eqn:E.
    + apply Qltb_lt in E. apply Qle_shift_div_l; [exact E|].
      rewrite Qmult_0_l.
      apply Qmult_le_0_compat; [apply IH; lia | apply death_nonneg; lia].
    + apply Qle_refl.
Qed.

Lemma masses_nonneg (len : nat) :
  (Z.of_nat len <= n + 1)%Z ->
  Forall (fun x => 0 <= x) (map pmass (seq 0 len)).
Proof.
  intros Hlen. apply Forall_map_seq. intros i Hi. apply mass_nonneg. lia.
Qed.

Lemma mass_sum_ge_1 (len : nat) :
  (1 <= len)%nat -> (Z.of_nat len <= n + 1)%Z ->
  1 <= sumQ (map pmass (seq 0 len)).
Proof.
  intros H1 Hlen. destruct len as [|len]; [lia|].
  change (seq 0 (S len)) with (0%nat :: seq 1 len).
  cbn [map sumQ foldr mass].
  assert (0 <= sumQ (map pmass (seq 1 len))).
  { apply sumQ_nonneg. apply List.Forall_forall. intros x Hx.
    apply in_map_iff in Hx. destruct Hx as [i [<- Hi]].
    apply in_seq in Hi. apply mass_nonneg. lia. }
  fold (sumQ (map pmass (seq 1 len))). lra.
Qed.

End Signs.

(** ** The solver on valid inputs *)

Section ValidSolver.

Variables (mu gamma : Q) (warm_standby : bool) (n m k : Z).
Hypothesis Hvalid : valid mu gamma n m k.

Local Abbreviation pmass := (mass mu gamma warm_standby n m k).
Local Abbreviation states := (Z.to_nat (n + 1)).

Lemma valid_sum_ge_1 : 1 <= sumQ (map pmass (seq 0 states)).
Proof.
  destruct Hvalid as (Hmu & _ & Hn & Hm & _).
  apply mass_sum_ge_1; [exact Hmu | lia | lia | lia].
Qed.

Lemma valid_sum_nonzero : ~ sumQ (map pmass (seq 0 states)) == 0.
Proof. pose proof valid_sum_ge_1. lra. Qed.

Lemma valid_solver :
  birth_death_stationary_distribution mu gamma warm_standby n m k
  = Ok (map Fin (scaled (map pmass (seq 0 states)))).
Proof.
  destruct Hvalid as (_ & _ & Hn & _ & _).
  rewrite solver_closed by lia.
  rewrite normalize_scaled by apply valid_sum_nonzero. reflexivity.
Qed.

Lemma valid_scaled_nonneg :
  Forall (fun x => 0 <= x) (scaled (map pmass (seq 0 states))).
Proof.
  pose proof valid_sum_ge_1 as Hs.
  destruct Hvalid as (Hmu & _ & Hn & Hm & _).
  unfold scaled. apply List.Forall_forall. intros x Hx.
  apply in_map_iff in Hx. destruct Hx as [y [<- Hy]].
  apply in_map_iff in Hy. destruct Hy as [i [<- Hi]].
  apply in_seq in Hi.
  apply Qle_shift_div_l; [lra|]. rewrite Qmult_0_l.
  apply mass_nonneg; [exact Hmu | lia | lia].
Qed.

End ValidSolver.

(** In exact arithmetic, for every valid input the solver returns a vector
    of [n + 1] finite entries, each non-negative, whose sum is 1. *)
Theorem stationary_distribution_is_probability_vector
  (mu gamma : Q) (warm_standby : bool) (n m k : Z) :
  valid mu gamma n m k ->
  exists pi : list Q,
    birth_death_stationary_distribution mu gamma warm_standby n m k
    = Ok (map Fin pi)
    /\ length pi = Z.to_nat (n + 1)
    /\ Forall (fun x => 0 <= x) pi
    /\ sumQ pi == 1.
Proof.
  intros Hv.
  exists (scaled (map (mass mu gamma warm_standby n m k)
                      (seq 0 (Z.to_nat (n + 1))))).
  split; [apply valid_solver; exact Hv|].
  split; [rewrite scaled_length, length_map, length_seq; reflexivity|].
  split; [apply valid_scaled_nonneg; exact Hv|].
  apply scaled_sum. apply valid_sum_nonzero. exact Hv.
Qed.

(** ** The recurrence *)


Lemma mass_zero_propagates (mu gamma : Q) (warm_standby : bool) (n m k : Z)
  (i j : nat) :
  (i <= j)%nat ->
  mass mu gamma warm_standby n m k i == 0 ->
  mass mu gamma warm_standby n m k j == 0.
Proof.
  intros Hij Hi. induction Hij as [|j _ IH]; [exact Hi|].
  rewrite mass_step. destruct (Qltb 0 _); [|reflexivity].
  rewrite IH. unfold Qdiv. ring.
Qed.



(** ** No repair capacity *)







(** ** Availability *)

Lemma take_map_seq (g : nat -> Q) (s len : nat) :
  (s <= len)%nat -> take s (map g (seq 0 len)) = map g (seq 0 s).
Proof.
  intros Hs. replace len with (s + (len - s))%nat by lia.
  rewrite seq_app, map_app. apply take_app_length'.
  rewrite length_map, length_seq. reflexivity.
Qed.

Lemma sumQ_take_bounds (pi : list Q) (s : nat) :
  Forall (fun x => 0 <= x) pi ->
  0 <= sumQ (take s pi) /\ sumQ (take s pi) <= sumQ pi.
Proof.
  intros Hpos.
  assert (H1 : 0 <= sumQ (take s pi)) by (apply sumQ_nonneg, Forall_take, Hpos).
  assert (H2 : 0 <= sumQ (drop s pi)) by (apply sumQ_nonneg, Forall_drop, Hpos).
  split; [exact H1|].
  rewrite <- (take_drop s pi) at 2. rewrite sumQ_app. lra.
Qed.

Lemma slice_to_Fin (pi : list Q) (stop : Z) :
  (0 <= stop)%Z ->
  slice_to (map Fin pi) stop = map Fin (take (Z.to_nat stop) pi).
Proof.
  intros Hs. unfold slice_to.
  destruct (Z.leb_spec 0 stop) as [_|?]; [|lia].
  apply firstn_map.
Qed.

Section ValidAvailability.

Variables (mu gamma : Q) (warm_standby : bool) (n m k : Z).
Hypothesis Hvalid : valid mu gamma n m k.

Local Abbreviation pmass := (mass mu gamma warm_standby n m k).
Local Abbreviation states := (Z.to_nat (n + 1)).
Local Abbreviation up := (Z.to_nat (n - m + 1)).

Lemma valid_availability :
  system_availability mu gamma warm_standby n m k
  = Ok (Fin (sumQ (take up (scaled (map pmass (seq 0 states)))))).
Proof.
  unfold system_availability. rewrite (valid_solver _ _ _ _ _ _ Hvalid).
  destruct Hvalid as (_ & _ & Hn & Hm & _).
  cbn [bind]. rewrite slice_to_Fin by lia. rewrite xsum_Fin. reflexivity.
Qed.

Lemma availability_ratio :
  sumQ (take up (scaled (map pmass (seq 0 states))))
  == sumQ (map pmass (seq 0 up)) / sumQ (map pmass (seq 0 states)).
Proof.
  destruct Hvalid as (_ & _ & Hn & Hm & _).
  unfold scaled. rewrite firstn_map, take_map_seq by lia.
  apply sumQ_scale.
Qed.

End ValidAvailability.

(** In exact arithmetic, for every valid input [system_availability] is
    the sum of the stationary probabilities [pi[0]] to [pi[n-m]] inclusive,
    and lies in [[0, 1]]. *)
Theorem availability_is_sum_of_up_states
  (mu gamma : Q) (warm_standby : bool) (n m k : Z) :
  valid mu gamma n m k ->
  exists (pi : list Q) (availability : Q),
    birth_death_stationary_distribution mu gamma warm_standby n m k
    = Ok (map Fin pi)
    /\ system_availability mu gamma warm_standby n m k = Ok (Fin availability)
    /\ availability = sumQ (take (Z.to_nat (n - m + 1)) pi)
    /\ 0 <= availability <= 1.
Proof.
  intros Hv.
  set (pi := scaled (map (mass mu gamma warm_standby n m k)
                         (seq 0 (Z.to_nat (n + 1))))).
  exists pi, (sumQ (take (Z.to_nat (n - m + 1)) pi)).
  split; [apply valid_solver; exact Hv|].
  split; [apply valid_availability; exact Hv|].
  split; [reflexivity|].
  destruct (sumQ_take_bounds pi (Z.to_nat (n - m + 1))) as [H0 H1].
  { apply valid_scaled_nonneg. exact Hv. }
  assert (Hsum : sumQ pi == 1)
    by (apply scaled_sum, valid_sum_nonzero; exact Hv).
  split; lra.
Qed.

(** ** Cold standby: no mass below the first down state *)

Section Cold.

Variables (mu gamma : Q) (n m k : Z).
Hypothesis Hvalid : valid mu gamma n m k.

Local Abbreviation pmass := (mass mu gamma false n m k).
Local Abbreviation states := (Z.to_nat (n + 1)).
Local Abbreviation up := (Z.to_nat (n - m + 1)).

Lemma cold_death_zero (i : nat) :
  (n - m < Z.of_nat i)%Z -> death mu false n m i = 0.
Proof.
  intros Hi. unfold death. rewrite Z.geb_leb.
  destruct (Z.leb_spec m (n - Z.of_nat i)) as [?|_]; [lia|]. reflexivity.
Qed.

Lemma cold_mass_zero (i : nat) : (n - m + 2 <= Z.of_nat i)%Z -> pmass i == 0.
Proof.
  destruct Hvalid as (_ & _ & Hn & Hm & _).
  intros Hi. apply (mass_zero_propagates _ _ _ _ _ _ (S up) i); [lia|].
  rewrite mass_step. destruct (Qltb 0 _); [|reflexivity].
  rewrite cold_death_zero by lia. unfold Qdiv. ring.
Qed.

Lemma cold_scaled_entry (i : nat) :
  (i < states)%nat ->
  get (scaled (map pmass (seq 0 states))) i
  = pmass i / sumQ (map pmass (seq 0 states)).
Proof.
  intros Hi. unfold scaled. rewrite map_map.
  rewrite (get_map_seq (fun j => pmass j / _)) by lia. reflexivity.
Qed.

Lemma cold_unavailability :
  1 - sumQ (take up (scaled (map pmass (seq 0 states))))
  == get (scaled (map pmass (seq 0 states))) up.
Proof.
  pose proof (valid_sum_nonzero _ _ false _ _ _ Hvalid) as Hnz.
  pose proof (scaled_sum _ Hnz) as Hone.
  destruct Hvalid as (_ & _ & Hn & Hm & _).
  rewrite cold_scaled_entry by lia.
  unfold scaled in *. rewrite map_map in *.
  set (g := fun j => pmass j / sumQ (map pmass (seq 0 states))) in *.
  rewrite take_map_seq by lia.
  replace states with (up + S (states - S up))%nat in Hone by lia.
  rewrite seq_app, map_app, sumQ_app in Hone.
  cbn [seq map sumQ foldr] in Hone.
  fold (sumQ (map g (seq (S (0 + up)) (states - S up)))) in Hone.
  rewrite (sumQ_zero (map g (seq _ (states - S up)))) in Hone.
  - change (g (0 + up)%nat) with (pmass up / sumQ (map pmass (seq 0 states)))
      in Hone.
    lra.
  - apply List.Forall_forall. intros x Hx.
    apply in_map_iff in Hx. destruct Hx as [j [<- Hj]].
    apply in_seq in Hj. unfold g.
    rewrite cold_mass_zero by lia. unfold Qdiv. ring.
Qed.

End Cold.

(** In exact arithmetic and cold standby, for every valid input,
    [pi[i] = 0] for every state [i >= n-m+2], and the unavailability
    [1 - availability] is [pi[n-m+1]] alone. *)
Theorem cold_standby_mass_stops_at_first_down_state
  (mu gamma : Q) (n m k : Z) :
  valid mu gamma n m k ->
  exists (pi : list Q) (availability : Q),
    birth_death_stationary_distribution mu gamma false n m k = Ok (map Fin pi)
    /\ (forall i : nat, (n - m + 2 <= Z.of_nat i <= n)%Z -> get pi i == 0)
    /\ system_availability mu gamma false n m k = Ok (Fin availability)
    /\ 1 - availability == get pi (Z.to_nat (n - m + 1)).
Proof.
  intros Hv.
  set (pi := scaled (map (mass mu gamma false n m k)
                         (seq 0 (Z.to_nat (n + 1))))).
  exists pi, (sumQ (take (Z.to_nat (n - m + 1)) pi)).
  split; [apply valid_solver; exact Hv|].
  split.
  - intros i Hi. unfold pi. rewrite cold_scaled_entry by lia.
    rewrite (cold_mass_zero _ _ _ _ _ Hv) by lia. unfold Qdiv. ring.
  - split; [apply valid_availability; exact Hv|].
    apply cold_unavailability. exact Hv.
Qed.

(** ** Comparing two chains *)

(** Two non-negative weight functions [f] and [g] on the states, where [g]
    puts relatively less weight on the higher states than [f] does. *)
Section Dominance.

Variables (f g : nat -> Q).

Lemma cross_sum_one (i : nat) (l : list nat) :
  (forall j, In j l -> f i * g j <= g i * f j) ->
  f i * sumQ (map g l) <= g i * sumQ (map f l).
Proof.
  induction l as [|j l IH]; intros H; simpl.
  - lra.
  - assert (H1 : f i * g j <= g i * f j) by (apply H; left; reflexivity).
    assert (H2 : f i * sumQ (map g l) <= g i * sumQ (map f l))
      by (apply IH; intros; apply H; right; assumption).
    unfold sumQ in *. lra.
Qed.

Lemma cross_sum (l1 l2 : list nat) :
  (forall i j, In i l1 -> In j l2 -> f i * g j <= g i * f j) ->
  sumQ (map f l1) * sumQ (map g l2) <= sumQ (map g l1) * sumQ (map f l2).
Proof.
  induction l1 as [|i l1 IH]; intros H; simpl.
  - lra.
  - assert (H1 : f i * sumQ (map g l2) <= g i * sumQ (map f l2))
      by (apply cross_sum_one; intros; apply H; [left; reflexivity|assumption]).
    assert (H2 : sumQ (map f l1) * sumQ (map g l2)
                 <= sumQ (map g l1) * sumQ (map f l2))
      by (apply IH; intros; apply H; [right|]; assumption).
    unfold sumQ in *. lra.
Qed.

Variables (up states : nat).
Hypothesis Hup : (up <= states)%nat.
Hypothesis Hcross :
  forall i j, (i <= j < states)%nat -> f i * g j <= g i * f j.
Hypothesis Hf : 0 < sumQ (map f (seq 0 states)).
Hypothesis Hg : 0 < sumQ (map g (seq 0 states)).

Lemma dominance_share :
  sumQ (map f (seq 0 up)) / sumQ (map f (seq 0 states))
  <= sumQ (map g (seq 0 up)) / sumQ (map g (seq 0 states)).
Proof.
  assert (Hsplit : seq 0 states = seq 0 up ++ seq up (states - up)).
  { rewrite <- seq_app. f_equal. lia. }
  rewrite Hsplit in *. rewrite !map_app, !sumQ_app in *.
  pose proof (cross_sum (seq 0 up) (seq up (states - up))) as Hx.
  set (Uf := sumQ (map f (seq 0 up))) in *.
  set (Ug := sumQ (map g (seq 0 up))) in *.
  set (Df := sumQ (map f (seq up (states - up)))) in *.
  set (Dg := sumQ (map g (seq up (states - up)))) in *.
  assert (Hc : Uf * Dg <= Ug * Df).
  { apply Hx. intros i j Hi Hj. apply in_seq in Hi, Hj.
    apply Hcross. lia. }
  apply Qle_shift_div_l; [exact Hg|].
  assert (E : Uf / (Uf + Df) * (Ug + Dg) == Uf * (Ug + Dg) / (Uf + Df))
    by (field; lra).
  rewrite E. apply Qle_shift_div_r; [exact Hf|]. lra.
Qed.

End Dominance.

(** Weights built by per-step ratios: the chain with the smaller ratios
    puts less weight on the higher states. *)
Section Ratios.

Variables (f g rf rg : nat -> Q) (top : nat).
Hypothesis Hf0 : 0 <= f 0%nat.
Hypothesis Hg0 : 0 <= g 0%nat.
Hypothesis Hfs : forall j, (j < top)%nat -> f (S j) == f j * rf j.
Hypothesis Hgs : forall j, (j < top)%nat -> g (S j) == g j * rg j.
Hypothesis Hr : forall j, (j < top)%nat -> 0 <= rg j <= rf j.

Lemma ratio_nonneg_f (i : nat) : (i <= top)%nat -> 0 <= f i.
Proof.
  induction i as [|i IH]; intros Hi; [exact Hf0|].
  rewrite Hfs by lia. apply Qmult_le_0_compat; [apply IH; lia|].
  destruct (Hr i); [lia|]. lra.
Qed.

Lemma ratio_nonneg_g (i : nat) : (i <= top)%nat -> 0 <= g i.
Proof.
  induction i as [|i IH]; intros Hi; [exact Hg0|].
  rewrite Hgs by lia. apply Qmult_le_0_compat; [apply IH; lia|].
  destruct (Hr i); [lia|]. lra.
Qed.

Lemma ratio_cross (i j : nat) :
  (i <= j)%nat -> (j <= top)%nat -> f i * g j <= g i * f j.
Proof.
  intros Hij. induction Hij as [|j Hij IH]; intros Hj.
  - rewrite (Qmult_comm (f i)). apply Qle_refl.
  - rewrite Hfs, Hgs by lia.
    destruct (Hr j) as [H0 H1]; [lia|].
    assert (Hgi : 0 <= g i) by (apply ratio_nonneg_g; lia).
    assert (Hfj : 0 <= f j) by (apply ratio_nonneg_f; lia).
    assert (IH' : f i * g j <= g i * f j) by (apply IH; lia).
    assert (Hgf : 0 <= g i * f j) by (apply Qmult_le_0_compat; assumption).
    apply Qle_trans with (g i * f j * rg j).
    + rewrite Qmult_assoc. apply Qmult_le_compat_r; assumption.
    + rewrite (Qmult_assoc (g i)).
      rewrite !(Qmult_comm (g i * f j)).
      apply Qmult_le_compat_r; assumption.
Qed.

End Ratios.

(** ** Ratios of the model *)

Lemma mass_ratio (mu gamma : Q) (warm_standby : bool) (n m k : Z) (j : nat) :
  mass mu gamma warm_standby n m k (S j)
  == mass mu gamma warm_standby n m k j * ratio mu gamma warm_standby n m k j.
Proof.
  rewrite mass_step. unfold ratio.
  destruct (Qltb 0 _); unfold Qdiv; ring.
Qed.

Lemma birth_pos (gamma : Q) (k : Z) (j : nat) :
  (1 <= k)%Z -> 0 < gamma -> 0 < birth gamma k (S j).
Proof.
  intros Hk Hg. unfold birth.
  assert (H : 1 <= inject_Z (Z.min (Z.of_nat (S j)) k))
    by (change 1 with (inject_Z 1); rewrite <- Zle_Qle; lia).
  nra.
Qed.

Lemma birth_mono (gamma : Q) (k1 k2 : Z) (i : nat) :
  (k1 <= k2)%Z -> 0 <= gamma -> birth gamma k1 i <= birth gamma k2 i.
Proof.
  intros Hk Hg. unfold birth. apply Qmult_le_compat_r; [|exact Hg].
  rewrite <- Zle_Qle. lia.
Qed.

Lemma birth_no_repair (gamma : Q) (k : Z) (i : nat) :
  gamma <= 0 -> 0 <= gamma -> Qltb 0 (birth gamma k i) = false.
Proof.
  intros H1 H2. apply Qltb_ge. unfold birth.
  assert (E : gamma == 0) by lra. rewrite E, Qmult_0_r. apply Qle_refl.
Qed.

Lemma Qdiv_nonneg (a b : Q) : 0 <= a -> 0 < b -> 0 <= a / b.
Proof.
  intros Ha Hb. apply Qle_shift_div_l; [exact Hb|]. rewrite Qmult_0_l. exact Ha.
Qed.

Lemma Qdiv_le_num (a a' b : Q) : a <= a' -> 0 < b -> a / b <= a' / b.
Proof.
  intros Ha Hb. apply Qle_shift_div_l; [exact Hb|].
  assert (E : a / b * b == a) by (field; lra). rewrite E. exact Ha.
Qed.

Lemma Qdiv_le_den (a b b' : Q) : 0 <= a -> 0 < b -> b <= b' -> a / b' <= a / b.
Proof.
  intros Ha Hb Hbb. apply Qle_shift_div_l; [exact Hb|].
  assert (E : a / b' * b == a * b / b') by (field; lra). rewrite E.
  apply Qle_shift_div_r; [lra|].
  rewrite !(Qmult_comm a). apply Qmult_le_compat_r; assumption.
Qed.

Section RatioOrder.

Variables (mu gamma : Q) (n m : Z).
Hypothesis Hmu : 0 <= mu.
Hypothesis Hgamma : 0 <= gamma.
Hypothesis Hm : (0 <= m)%Z.

(** A larger crew lowers every ratio. *)
Lemma ratio_crew (warm_standby : bool) (k1 k2 : Z) (j : nat) :
  (1 <= k1 <= k2)%Z -> (Z.of_nat j <= n)%Z ->
  0 <= ratio mu gamma warm_standby n m k2 j
    <= ratio mu gamma warm_standby n m k1 j.
Proof.
  intros Hk Hj. unfold ratio.
  pose proof (death_nonneg mu warm_standby n m Hmu Hm j Hj) as Hd.
  destruct (Qlt_le_dec 0 gamma) as [Hpos|Hzero].
  - pose proof (birth_pos gamma k1 j ltac:(lia) Hpos) as Hb1.
    pose proof (birth_pos gamma k2 j ltac:(lia) Hpos) as Hb2.
    pose proof (birth_mono gamma k1 k2 (S j) ltac:(lia) Hgamma) as Hb.
    rewrite (proj2 (Qltb_lt _ _) Hb1), (proj2 (Qltb_lt _ _) Hb2).
    split; [apply Qdiv_nonneg | apply Qdiv_le_den]; assumption.
  - rewrite !birth_no_repair by assumption. split; apply Qle_refl.
Qed.

Lemma death_cold_le_warm (j : nat) :
  (Z.of_nat j <= n)%Z -> death mu false n m j <= death mu true n m j.
Proof.
  intros Hj. unfold death. rewrite Z.geb_leb.
  destruct (Z.leb_spec m (n - Z.of_nat j)) as [Hw|Hw].
  - apply Qmult_le_compat_r; [|exact Hmu]. rewrite <- Zle_Qle. exact Hw.
  - apply Qmult_le_0_compat; [apply inject_Z_nonneg; lia | exact Hmu].
Qed.

(** Cold standby lowers every ratio. *)
Lemma ratio_mode (k : Z) (j : nat) :
  (Z.of_nat j <= n)%Z ->
  0 <= ratio mu gamma false n m k j <= ratio mu gamma true n m k j.
Proof.
  intros Hj. unfold ratio.
  pose proof (death_nonneg mu false n m Hmu Hm j Hj) as Hd.
  pose proof (death_cold_le_warm j Hj) as Hdd.
  destruct (Qltb 0 (birth gamma k (S j))) eqn:E.
  - apply Qltb_lt in E.
    split; [apply Qdiv_nonneg | apply Qdiv_le_num]; assumption.
  - split; apply Qle_refl.
Qed.

End RatioOrder.

(** ** Availability comparisons *)

Section Compare.

Variables (mu gamma : Q) (n m : Z).
Variables (w1 w2 : bool) (k1 k2 : Z).
Hypothesis Hv1 : valid mu gamma n m k1.
Hypothesis Hv2 : valid mu gamma n m k2.

Local Abbreviation f := (mass mu gamma w1 n m k1).
Local Abbreviation g := (mass mu gamma w2 n m k2).
Local Abbreviation states := (Z.to_nat (n + 1)).
Local Abbreviation up := (Z.to_nat (n - m + 1)).

(** Chain 2 has the smaller ratios. *)
Hypothesis Hratio :
  forall j : nat, (j < Z.to_nat n)%nat ->
    0 <= ratio mu gamma w2 n m k2 j <= ratio mu gamma w1 n m k1 j.

Lemma compare_availability :
  sumQ (take up (scaled (map f (seq 0 states))))
  <= sumQ (take up (scaled (map g (seq 0 states)))).
Proof.
  rewrite (availability_ratio _ _ _ _ _ _ Hv1).
  rewrite (availability_ratio _ _ _ _ _ _ Hv2).
  pose proof (valid_sum_ge_1 _ _ w1 _ _ _ Hv1) as Hs1.
  pose proof (valid_sum_ge_1 _ _ w2 _ _ _ Hv2) as Hs2.
  destruct Hv1 as (_ & _ & Hn & Hm & _).
  apply dominance_share; [lia | | lra | lra].
  intros i j Hij.
  apply (ratio_cross f g (ratio mu gamma w1 n m k1)
                     (ratio mu gamma w2 n m k2) (Z.to_nat n)).
  - simpl. lra.
  - simpl. lra.
  - intros; apply mass_ratio.
  - intros; apply mass_ratio.
  - exact Hratio.
  - lia.
  - lia.
Qed.

End Compare.

(** In exact arithmetic, for fixed [(n, m, mu, gamma, standby mode)] and
    crew sizes [k1 <= k2], the availability with [k1] is at most the
    availability with [k2]. *)
Theorem availability_monotone_in_crew_size
  (mu gamma : Q) (warm_standby : bool) (n m k1 k2 : Z) :
  valid mu gamma n m k1 -> (k1 <= k2)%Z ->
  exists a1 a2 : Q,
    system_availability mu gamma warm_standby n m k1 = Ok (Fin a1)
    /\ system_availability mu gamma warm_standby n m k2 = Ok (Fin a2)
    /\ a1 <= a2.
Proof.
  intros Hv1 Hk.
  assert (Hv2 : valid mu gamma n m k2).
  { destruct Hv1 as (? & ? & ? & ? & ?). unfold valid.
    repeat split; (assumption || lia). }
  eexists. eexists.
  split; [apply valid_availability; exact Hv1|].
  split; [apply valid_availability; exact Hv2|].
  apply compare_availability; [exact Hv1 | exact Hv2 |].
  intros j Hj. destruct Hv1 as (Hmu & Hg & Hn & Hm & Hk1).
  apply ratio_crew; (assumption || lia).
Qed.

Lemma one_component_modes_agree (mu gamma : Q) (k : Z) :
  map (mass mu gamma true 1 1 k) (seq 0 (Z.to_nat (1 + 1)))
  = map (mass mu gamma false 1 1 k) (seq 0 (Z.to_nat (1 + 1))).
Proof. reflexivity. Qed.

(** In exact arithmetic, for every valid input (so [n >= m]) the
    cold-standby availability is at least the warm-standby availability;
    the two are equal when [n = m = 1]. *)
Theorem cold_availability_at_least_warm (mu gamma : Q) (n m k : Z) :
  valid mu gamma n m k ->
  exists warm cold : Q,
    system_availability mu gamma true n m k = Ok (Fin warm)
    /\ system_availability mu gamma false n m k = Ok (Fin cold)
    /\ warm <= cold
    /\ (n = 1%Z -> warm == cold).
Proof.
  intros Hv. eexists. eexists.
  split; [apply valid_availability; exact Hv|].
  split; [apply valid_availability; exact Hv|].
  split.
  - apply compare_availability; [exact Hv | exact Hv |].
    intros j Hj. destruct Hv as (Hmu & Hg & Hn & Hm & Hk).
    apply ratio_mode; (assumption || lia).
  - intros ->. destruct Hv as (_ & _ & _ & Hm & _).
    assert (m = 1%Z) as -> by lia.
    rewrite one_component_modes_agree. reflexivity.
Qed.

(** ** The search loop *)


Section Search.

Variables (mu gamma : Q) (warm_standby : bool) (m : Z).
Variables (component_cost repairman_cost downtime_cost : Q).

Local Abbreviation cost :=
  (config_cost mu gamma warm_standby m
               component_cost repairman_cost downtime_cost).
Local Abbreviation inner :=
  (inner_step mu gamma warm_standby m
              component_cost repairman_cost downtime_cost).
Local Abbreviation outer :=
  (outer_step mu gamma warm_standby m
              component_cost repairman_cost downtime_cost).


End Search.

(** ** The grid of configurations *)

Lemma grid_in (n_range k_range : list Z) (n k : Z) :
  In (n, k) (grid n_range k_range) <-> In n n_range /\ In k k_range.
Proof.
  unfold grid. rewrite in_flat_map. split.
  - intros [n' [Hn Hk]]. apply in_map_iff in Hk.
    destruct Hk as [k' [[= <- <-] Hk]]. auto.
  - intros [Hn Hk]. exists n. split; [exact Hn|].
    apply in_map_iff. exists k. auto.
Qed.

Lemma row_sorted (n : Z) (k_range : list Z) :
  StronglySorted Z.lt k_range -> StronglySorted lex_lt (map (pair n) k_range).
Proof.
  induction 1 as [|k ks _ IH Hall]; simpl; constructor.
  - exact IH.
  - apply List.Forall_forall. intros p Hp. apply in_map_iff in Hp.
    destruct Hp as [k' [<- Hk']]. right. simpl. split; [reflexivity|].
    rewrite List.Forall_forall in Hall. apply Hall. exact Hk'.
Qed.

Lemma grid_sorted (n_range k_range : list Z) :
  StronglySorted Z.lt n_range -> StronglySorted Z.lt k_range ->
  StronglySorted lex_lt (grid n_range k_range).
Proof.
  intros Hn Hk. induction Hn as [|n ns _ IH Hall].
  - constructor.
  - change (grid (n :: ns) k_range)
      with (map (pair n) k_range ++ grid ns k_range).
    apply StronglySorted_app_2; [|apply row_sorted; exact Hk | exact IH].
    intros p q Hp Hq. apply list_elem_of_In in Hp, Hq.
    apply in_map_iff in Hp. destruct Hp as [k [<- _]].
    destruct q as [n' k']. apply grid_in in Hq. destruct Hq as [Hn' _].
    left. simpl. rewrite List.Forall_forall in Hall. apply Hall. exact Hn'.
Qed.

Lemma sorted_after (p q : Z * Z) (before after : list (Z * Z)) :
  StronglySorted lex_lt (before ++ p :: after) -> In q after -> lex_lt p q.
Proof.
  intros Hs Hq. apply StronglySorted_app_1_r in Hs.
  apply StronglySorted_inv in Hs. destruct Hs as [_ Hall].
  rewrite List.Forall_forall in Hall. apply Hall. exact Hq.
Qed.

(** ** The rate model *)



(** ** Crew sizes beyond the pool *)




(** ** Availability at the extremes *)






(** ** What the optimizer returns *)



Section Returned.

Variables (mu gamma : Q) (warm_standby : bool) (m : Z).
Variables (component_cost repairman_cost downtime_cost : Q).

Local Abbreviation cost :=
  (config_cost mu gamma warm_standby m
               component_cost repairman_cost downtime_cost).
Local Abbreviation inner :=
  (inner_step mu gamma warm_standby m
              component_cost repairman_cost downtime_cost).



End Returned.



(** * The program in binary64: proofs *)

(** ** Signs of float results *)

Section FloatSignLemmas.

Import B64.

(** Rounding keeps the sign it is given. *)
Lemma round_aux_sign (s : bool) (mx ex : Z) (lx : location) :
  match binary_round_aux prec emax s mx ex lx with
  | S754_nan => True
  | S754_zero s' | S754_infinity s' | S754_finite s' _ _ => s' = s
  end.
Proof.
  unfold binary_round_aux.
  destruct (shr_fexp prec emax mx ex lx) as [mrs' e'].
  destruct (shr_fexp prec emax _ e' loc_Exact) as [mrs'' e''].
  destruct (shr_m mrs''); [reflexivity | | exact I].
  destruct (Z.leb e'' (emax - prec)); reflexivity.
Qed.

Lemma round_sign (s : bool) (mx : positive) (ex : Z) :
  match binary_round prec emax s mx ex with
  | S754_nan => True
  | S754_zero s' | S754_infinity s' | S754_finite s' _ _ => s' = s
  end.
Proof.
  unfold binary_round. destruct (shl_align mx ex _) as [mz ez].
  apply round_aux_sign.
Qed.

Lemma unsigned_not_negative (x : float) : unsigned x -> not_negative x.
Proof. destruct x as [s|s| |s mx ex]; simpl; intros H; subst; reflexivity. Qed.

Lemma not_negative_cases (x : float) :
  not_negative x <-> unsigned x \/ is_zero x = true.
Proof.
  unfold not_negative.
  destruct x as [[|]|[|]| |[|] mx ex]; simpl; split;
    (intros [H|H] || intros H); auto; discriminate.
Qed.

Lemma unsigned_round_aux (mx ex : Z) (lx : location) :
  unsigned (binary_round_aux prec emax false mx ex lx).
Proof.
  pose proof (round_aux_sign false mx ex lx) as H.
  destruct (binary_round_aux prec emax false mx ex lx); exact H.
Qed.

Lemma unsigned_round (mx : positive) (ex : Z) :
  unsigned (binary_round prec emax false mx ex).
Proof.
  pose proof (round_sign false mx ex) as H.
  destruct (binary_round prec emax false mx ex); exact H.
Qed.

Lemma of_int_unsigned (z : Z) (f : float) :
  (0 <= z)%Z -> of_int z = Return f -> unsigned f.
Proof.
  intros Hz. unfold of_int.
  destruct z as [|p|p]; [| |lia].
  - intros [= <-]. reflexivity.
  - simpl binary_normalize. pose proof (unsigned_round p 0) as H.
    destruct (binary_round prec emax false p 0); intros [= <-]; exact H.
Qed.

Lemma of_int_error (z : Z) (e : exn) : of_int z = Throw e -> e = OverflowError.
Proof.
  unfold of_int. destruct (binary_normalize prec emax z 0 false);
    intros [= <-]; reflexivity.
Qed.

Lemma mul_not_negative (x y : float) :
  not_negative x -> not_negative y -> not_negative (mul x y).
Proof.
  rewrite !not_negative_cases.
  destruct x as [sx|sx| |sx mx ex], y as [sy|sy| |sy my ey];
    simpl; intros [Hx|Hx] [Hy|Hy]; subst; try discriminate;
    try (left; reflexivity); try (right; reflexivity).
  left. apply unsigned_round_aux.
Qed.

Lemma div_not_negative (x y : float) :
  not_negative x -> unsigned y -> not_negative (div x y).
Proof.
  rewrite !not_negative_cases.
  destruct x as [sx|sx| |sx mx ex], y as [sy|sy| |sy my ey];
    simpl; intros [Hx|Hx] Hy; subst; try discriminate;
    try (left; reflexivity); try (right; reflexivity).
  left. unfold div, SFdiv.
  destruct (SFdiv_core_binary prec emax (Z.pos mx) ex (Z.pos my) ey)
    as [[mz ez] lz].
  apply unsigned_round_aux.
Qed.

Lemma positive_unsigned (x : float) : ltb zero x = true -> unsigned x.
Proof. destruct x as [[|]|[|]| |[|] mx ex]; simpl; intros H; auto; discriminate. Qed.

Lemma add_finite_unsigned (mx : positive) (ex : Z) (my : positive) (ey : Z) :
  unsigned (add (S754_finite false mx ex) (S754_finite false my ey)).
Proof.
  unfold add, SFadd, cond_Zopp.
  change (Z.pos (shl_align mx ex (Z.min ex ey)).1
          + Z.pos (shl_align my ey (Z.min ex ey)).1)%Z
    with (Z.pos ((shl_align mx ex (Z.min ex ey)).1
                 + (shl_align my ey (Z.min ex ey)).1)).
  apply unsigned_round.
Qed.

Lemma add_not_negative (x y : float) :
  not_negative x -> not_negative y -> not_negative (add x y).
Proof.
  rewrite !not_negative_cases.
  destruct x as [[|]|[|]| |[|] mx ex], y as [[|]|[|]| |[|] my ey];
    simpl; intros [Hx|Hx] [Hy|Hy]; try discriminate;
    try (left; reflexivity); try (right; reflexivity).
  left. apply add_finite_unsigned.
Qed.

Lemma add_unsigned_l (x y : float) :
  unsigned x -> not_negative y -> unsigned (add x y).
Proof.
  rewrite not_negative_cases.
  destruct x as [[|]|[|]| |[|] mx ex], y as [[|]|[|]| |[|] my ey];
    simpl; intros Hx [Hy|Hy]; try discriminate; try reflexivity.
  apply add_finite_unsigned.
Qed.

Lemma add_unsigned_r (x y : float) :
  not_negative x -> unsigned y -> unsigned (add x y).
Proof.
  rewrite not_negative_cases.
  destruct x as [[|]|[|]| |[|] mx ex], y as [[|]|[|]| |[|] my ey];
    simpl; intros [Hx|Hx] Hy; try discriminate; try reflexivity.
  apply add_finite_unsigned.
Qed.


Lemma mul_zn_l (x y : float) : zero_or_nan x -> zero_or_nan (mul x y).
Proof.
  destruct x as [sx|sx| |sx mx ex]; simpl; intros H; try contradiction;
    destruct y as [sy|sy| |sy my ey]; exact I.
Qed.


Lemma div_by_zero_not_finite (x y : float) :
  is_zero y = true -> is_finite (div x y) = false.
Proof.
  destruct y as [sy|sy| |sy my ey]; simpl; intros H; try discriminate.
  destruct x as [sx|sx| |sx mx ex]; reflexivity.
Qed.

End FloatSignLemmas.

(** ** The order of floats *)

Section FloatOrder.

Import B64.

Ltac key_case :=
  split;
  [ intros H; first [discriminate H | repeat split; first [reflexivity | lia]]
  | intros (H1 & H2 & H3);
    first [discriminate H1 | discriminate H2 | reflexivity | exfalso; lia] ].

Lemma ltb_key (x y : float) :
  ltb x y = true
  <-> is_nan x = false /\ is_nan y = false /\ key_lt (key x) (key y).
Proof.
  unfold ltb, SFltb, SFcompare.
  destruct x as [[|]|[|]| |[|] mx ex], y as [[|]|[|]| |[|] my ey];
    cbn [is_nan key key_lt]; try key_case.
  - destruct (Z.compare_spec ex ey) as [He|He|He]; [|key_case|key_case].
    subst. change (Pos.compare_cont Eq mx my) with (Pos.compare mx my).
    destruct (Pos.compare_spec mx my) as [Hm|Hm|Hm]; cbn [CompOpp];
      key_case.
  - destruct (Z.compare_spec ex ey) as [He|He|He]; [|key_case|key_case].
    subst. change (Pos.compare_cont Eq mx my) with (Pos.compare mx my).
    destruct (Pos.compare_spec mx my) as [Hm|Hm|Hm]; key_case.
Qed.

Lemma ltb_not_nan (x y : float) :
  ltb x y = true -> is_nan x = false /\ is_nan y = false.
Proof. intros H. apply ltb_key in H. tauto. Qed.

Lemma ltb_irrefl (x : float) : ltb x x = false.
Proof.
  destruct (ltb x x) eqn:E; [|reflexivity].
  apply ltb_key in E. destruct E as (_ & _ & H).
  destruct (key x) as [[a b] c]. simpl in H. lia.
Qed.

Lemma ltb_trans (x y z : float) :
  ltb x y = true -> ltb y z = true -> ltb x z = true.
Proof.
  rewrite !ltb_key. intros (Hx & _ & H1) (_ & Hz & H2).
  split; [exact Hx|]. split; [exact Hz|].
  destruct (key x) as [[a1 a2] a3], (key y) as [[b1 b2] b3],
    (key z) as [[c1 c2] c3]. simpl in *. lia.
Qed.

(** [x < y <= z] gives [x < z] ([z] not NaN). *)
Lemma ltb_le_trans (x y z : float) :
  ltb x y = true -> ltb z y = false -> is_nan z = false -> ltb x z = true.
Proof.
  intros H1 H2 Hz. apply ltb_key. apply ltb_key in H1.
  destruct H1 as (Hx & Hy & H1). split; [exact Hx|]. split; [exact Hz|].
  assert (H3 : ~ key_lt (key z) (key y)).
  { intros H. rewrite (proj2 (ltb_key z y)) in H2; [discriminate|]. auto. }
  destruct (key x) as [[a1 a2] a3], (key y) as [[b1 b2] b3],
    (key z) as [[c1 c2] c3]. simpl in *. lia.
Qed.

Lemma eqb_not_ltb (x y : float) : eqb x y = true -> ltb y x = false.
Proof.
  unfold eqb, ltb, SFeqb, SFltb.
  destruct x as [[|]|[|]| |[|] mx ex], y as [[|]|[|]| |[|] my ey];
    simpl; try reflexivity; try discriminate.
  - rewrite (Z.compare_antisym ey ex).
    destruct (Z.compare ey ex); simpl; try reflexivity; try discriminate.
    change (Pos.compare_cont Eq mx my) with (Pos.compare mx my).
    change (Pos.compare_cont Eq my mx) with (Pos.compare my mx).
    rewrite (Pos.compare_antisym my mx).
    destruct (Pos.compare my mx); simpl; try reflexivity; discriminate.
  - rewrite (Z.compare_antisym ey ex).
    destruct (Z.compare ey ex); simpl; try reflexivity; try discriminate.
    change (Pos.compare_cont Eq mx my) with (Pos.compare mx my).
    change (Pos.compare_cont Eq my mx) with (Pos.compare my mx).
    rewrite (Pos.compare_antisym my mx).
    destruct (Pos.compare my mx); simpl; try reflexivity; discriminate.
Qed.

Lemma eqb_not_nan (x y : float) : eqb x y = true -> is_nan x = false.
Proof. destruct x, y; simpl; (reflexivity || discriminate). Qed.

End FloatOrder.

(** ** Signs of sums *)

Section SumSigns.

Import B64.

Lemma fold_add_not_negative (a : list float) (acc : float) :
  not_negative acc -> Forall not_negative a ->
  not_negative (fold_left add a acc).
Proof.
  revert acc. induction a as [|x a IH]; intros acc Hacc Ha; [exact Hacc|].
  inversion Ha as [|? ? Hx Ha']; subst. simpl. apply IH; [|exact Ha'].
  apply add_not_negative; assumption.
Qed.

Lemma fold_add_unsigned (a : list float) (acc : float) :
  unsigned acc -> Forall not_negative a -> unsigned (fold_left add a acc).
Proof.
  revert acc. induction a as [|x a IH]; intros acc Hacc Ha; [exact Hacc|].
  inversion Ha as [|? ? Hx Ha']; subst. simpl. apply IH; [|exact Ha'].
  apply add_unsigned_l; assumption.
Qed.

Lemma neg_zero_not_negative : not_negative neg_zero.
Proof. reflexivity. Qed.

Lemma fold_add_unsigned_head (x : float) (a : list float) :
  unsigned x -> Forall not_negative a ->
  unsigned (fold_left add (x :: a) neg_zero).
Proof.
  intros Hx Ha. cbn [fold_left]. apply fold_add_unsigned; [|exact Ha].
  apply add_unsigned_r; [exact neg_zero_not_negative | exact Hx].
Qed.

Ltac split_all :=
  repeat match goal with
         | H : Forall _ (_ :: _) |- _ =>
             let Hx := fresh "Hx" in
             let Hl := fresh "Hl" in
             apply Forall_cons in H; destruct H as [Hx Hl]
         end.

Lemma unrolled_loop_not_negative (len : nat) :
  forall (a : list float) (r0 r1 r2 r3 r4 r5 r6 r7 : float),
    (length a <= len)%nat ->
    Forall not_negative [r0; r1; r2; r3; r4; r5; r6; r7] ->
    Forall not_negative a ->
    not_negative (unrolled_loop r0 r1 r2 r3 r4 r5 r6 r7 a).
Proof.
  induction len as [|len IH]; intros a r0 r1 r2 r3 r4 r5 r6 r7 Hlen Hr Ha;
    split_all.
  - destruct a; [|simpl in Hlen; lia]. simpl.
    repeat apply add_not_negative; assumption.
  - do 8 (destruct a as [|? a];
          [cbn [unrolled_loop]; apply fold_add_not_negative;
           [repeat apply add_not_negative; assumption | exact Ha]|]).
    split_all. cbn [unrolled_loop]. apply IH.
    + simpl in Hlen. lia.
    + repeat constructor; apply add_not_negative; assumption.
    + assumption.
Qed.

Lemma unrolled_loop_unsigned (len : nat) :
  forall (a : list float) (r0 r1 r2 r3 r4 r5 r6 r7 : float),
    (length a <= len)%nat ->
    unsigned r0 ->
    Forall not_negative [r1; r2; r3; r4; r5; r6; r7] ->
    Forall not_negative a ->
    unsigned (unrolled_loop r0 r1 r2 r3 r4 r5 r6 r7 a).
Proof.
  induction len as [|len IH]; intros a r0 r1 r2 r3 r4 r5 r6 r7 Hlen H0 Hr Ha;
    split_all.
  - destruct a; [|simpl in Hlen; lia]. simpl.
    repeat (first [apply add_unsigned_l | apply add_not_negative]);
      assumption.
  - do 8 (destruct a as [|? a];
          [cbn [unrolled_loop]; apply fold_add_unsigned;
           [repeat (first [apply add_unsigned_l | apply add_not_negative]);
            assumption | exact Ha]|]).
    split_all. cbn [unrolled_loop]. apply IH.
    + simpl in Hlen. lia.
    + apply add_unsigned_l; assumption.
    + repeat constructor; apply add_not_negative; assumption.
    + assumption.
Qed.

Lemma unrolled_sum_not_negative (a : list float) :
  Forall not_negative a -> not_negative (unrolled_sum a).
Proof.
  intros Ha. unfold unrolled_sum.
  do 8 (destruct a as [|? a];
        [apply fold_add_not_negative;
         [exact neg_zero_not_negative | exact Ha]|]).
  split_all.
  apply (unrolled_loop_not_negative (length a)); auto.
  repeat constructor; assumption.
Qed.

Lemma unrolled_sum_unsigned (x : float) (a : list float) :
  unsigned x -> Forall not_negative a -> unsigned (unrolled_sum (x :: a)).
Proof.
  intros Hx Ha. unfold unrolled_sum.
  do 7 (destruct a as [|? a];
        [apply fold_add_unsigned_head; assumption|]).
  split_all.
  apply (unrolled_loop_unsigned (length a)); auto.
  repeat constructor; assumption.
Qed.

Lemma pairwise_sum_not_negative (fuel : nat) :
  forall a : list float,
    Forall not_negative a -> not_negative (pairwise_sum fuel a).
Proof.
  induction fuel as [|fuel IH]; intros a Ha; cbn [pairwise_sum];
    destruct (length a <=? 128)%nat;
    try (apply unrolled_sum_not_negative; exact Ha).
  apply add_not_negative; apply IH.
  - apply Forall_take. exact Ha.
  - apply Forall_drop. exact Ha.
Qed.

Lemma half_positive (len : nat) :
  (128 < len)%nat -> (1 <= len / 2 - (len / 2) mod 8)%nat.
Proof.
  intros Hlen.
  assert (H1 : (64 <= len / 2)%nat)
    by (apply Nat.div_le_lower_bound; lia).
  assert (H2 : ((len / 2) mod 8 < 8)%nat)
    by (apply Nat.mod_upper_bound; lia).
  lia.
Qed.

Lemma pairwise_sum_unsigned (fuel : nat) :
  forall (x : float) (a : list float),
    unsigned x -> Forall not_negative a ->
    unsigned (pairwise_sum fuel (x :: a)).
Proof.
  induction fuel as [|fuel IH]; intros x a Hx Ha; cbn [pairwise_sum];
    destruct (Nat.leb_spec (length (x :: a)) 128) as [Hle|Hgt];
    try (apply unrolled_sum_unsigned; assumption).
  pose proof (half_positive _ Hgt) as Hhalf.
  destruct (length (x :: a) / 2 - (length (x :: a) / 2) mod 8)%nat
    as [|half] eqn:E; [lia|].
  cbn [take drop]. apply add_unsigned_l.
  - apply IH; [exact Hx | apply Forall_take; exact Ha].
  - apply pairwise_sum_not_negative. apply Forall_drop. exact Ha.
Qed.


Lemma np_sum_unsigned (x : float) (a : list float) :
  unsigned x -> Forall not_negative a -> unsigned (np_sum (x :: a)).
Proof. intros Hx Ha. apply pairwise_sum_unsigned; assumption. Qed.

End SumSigns.

(** ** Loops that may raise *)

Section OutcomeLoops.

Import B64.

Lemma for_each_return {A S : Type} (body : S -> A -> outcome S)
  (I : S -> Prop) (l : list A) :
  (forall s a s', In a l -> I s -> body s a = Return s' -> I s') ->
  forall s s', I s -> for_each body l s = Return s' -> I s'.
Proof.
  induction l as [|a l IH]; intros Hstep s s' Hs Hrun; simpl in Hrun.
  - injection Hrun as <-. exact Hs.
  - destruct (body s a) as [s1|e] eqn:E; simpl in Hrun; [|discriminate].
    apply (IH (fun s0 a0 s0' Hin => Hstep s0 a0 s0' (or_intror Hin)) s1 s');
      [|exact Hrun].
    apply (Hstep s a s1); [left; reflexivity | exact Hs | exact E].
Qed.

Lemma for_each_throw {A S : Type} (body : S -> A -> outcome S)
  (P : exn -> Prop) (l : list A) :
  (forall s a e, In a l -> body s a = Throw e -> P e) ->
  forall s e, for_each body l s = Throw e -> P e.
Proof.
  induction l as [|a l IH]; intros Hstep s e Hrun; simpl in Hrun.
  - discriminate.
  - destruct (body s a) as [s1|e1] eqn:E; simpl in Hrun.
    + apply (IH (fun s0 a0 e0 Hin => Hstep s0 a0 e0 (or_intror Hin)) s1 e).
      exact Hrun.
    + injection Hrun as <-. apply (Hstep s a e1); [left; reflexivity | exact E].
Qed.



Lemma for_each_app_outcome {A S : Type} (body : S -> A -> outcome S)
  (a b : list A) (s : S) :
  for_each body (a ++ b) s = (s' <~ for_each body a s ;; for_each body b s').
Proof.
  revert s. induction a as [|x a IH]; intros s; simpl; [reflexivity|].
  destruct (body s x) as [s'|e]; simpl; [apply IH | reflexivity].
Qed.

Lemma fold_left_invariant {A S : Type} (f : S -> A -> S) (I : S -> Prop)
  (l : list A) :
  (forall s a, In a l -> I s -> I (f s a)) ->
  forall s, I s -> I (fold_left f l s).
Proof.
  induction l as [|a l IH]; intros Hstep s Hs; simpl; [exact Hs|].
  apply IH.
  - intros s0 a0 Hin. apply Hstep. right. exact Hin.
  - apply Hstep; [left; reflexivity | exact Hs].
Qed.

End OutcomeLoops.

(** ** Ints as floats *)

Section SmallInts.

Import B64.






End SmallInts.

(** ** The rate arrays *)

Section Rates.

Import B64.

Variables (mu gamma : float) (warm_standby : bool) (n m k : Z).

Lemma int_times_error (z : Z) (x : float) (e : exn) :
  int_times z x = Throw e -> e = OverflowError.
Proof.
  unfold int_times. destruct (of_int z) as [f|e'] eqn:E; simpl; [discriminate|].
  intros [= <-]. eapply of_int_error. exact E.
Qed.

Lemma int_times_not_negative (z : Z) (x y : float) :
  (0 <= z)%Z -> not_negative x -> int_times z x = Return y -> not_negative y.
Proof.
  intros Hz Hx. unfold int_times.
  destruct (of_int z) as [f|e] eqn:E; simpl; [|discriminate].
  intros [= <-]. apply mul_not_negative; [|exact Hx].
  apply unsigned_not_negative. eapply of_int_unsigned; eassumption.
Qed.

Lemma rates_step_error (st : list float * list float) (i : nat) (e : exn) :
  rates_step mu gamma warm_standby n m k st i = Throw e -> e = OverflowError.
Proof.
  destruct st as [b d]. unfold rates_step.
  destruct (int_times (Z.min (Z.of_nat i) k) gamma) as [x|e1] eqn:E1;
    cbn [bind]; [|intros [= <-]; eapply int_times_error; exact E1].
  destruct warm_standby; [|destruct (n - Z.of_nat i >=? m)%Z].
  - destruct (int_times (n - Z.of_nat i) mu) as [y|e2] eqn:E2; cbn [bind];
      [discriminate | intros [= <-]; eapply int_times_error; exact E2].
  - destruct (int_times m mu) as [y|e2] eqn:E2; cbn [bind];
      [discriminate | intros [= <-]; eapply int_times_error; exact E2].
  - discriminate.
Qed.

Lemma rate_vectors_error (states : nat) (e : exn) :
  rate_vectors mu gamma warm_standby n m k states = Throw e ->
  e = OverflowError.
Proof.
  unfold rate_vectors. intros Hrun.
  exact (for_each_throw _ (fun e0 => e0 = OverflowError) _
           (fun s a e0 _ => rates_step_error s a e0) _ _ Hrun).
Qed.

(** What one step writes: some birth rate, and a death rate [y]. *)
Lemma rates_step_writes (st st' : list float * list float) (i : nat) :
  rates_step mu gamma warm_standby n m k st i = Return st' ->
  exists x y,
    st' = (<[i := x]> (fst st), <[i := y]> (snd st))
    /\ (if warm_standby then int_times (n - Z.of_nat i) mu = Return y
        else if (n - Z.of_nat i >=? m)%Z then int_times m mu = Return y
             else y = zero).
Proof.
  destruct st as [b d]. unfold rates_step.
  destruct (int_times (Z.min (Z.of_nat i) k) gamma) as [x|e1];
    cbn [bind]; [|discriminate].
  destruct warm_standby; [|destruct (n - Z.of_nat i >=? m)%Z].
  - destruct (int_times (n - Z.of_nat i) mu) as [y|e2] eqn:E2; cbn [bind];
      [|discriminate].
    intros [= <-]. exists x, y. auto.
  - destruct (int_times m mu) as [y|e2] eqn:E2; cbn [bind]; [|discriminate].
    intros [= <-]. exists x, y. auto.
  - intros [= <-]. exists x, zero. auto.
Qed.

Lemma rate_vectors_length (states : nat) (b d : list float) :
  rate_vectors mu gamma warm_standby n m k states = Return (b, d) ->
  length b = states /\ length d = states.
Proof.
  unfold rate_vectors. intros Hrun.
  refine (for_each_return _
            (fun st => length (fst st) = states /\ length (snd st) = states)
            _ _ _ _ _ Hrun).
  - intros s i s' _ [Hb Hd] Hstep.
    apply rates_step_writes in Hstep. destruct Hstep as (x & y & -> & _).
    cbn [fst snd]. rewrite !length_insert. auto.
  - cbn [fst snd]. unfold zeros. rewrite length_replicate. auto.
Qed.

Lemma zeros_not_negative (len : nat) : Forall not_negative (zeros len).
Proof. apply Forall_replicate. reflexivity. Qed.

Lemma rate_vectors_not_negative (states : nat) (b d : list float) :
  not_negative mu -> (0 <= m)%Z -> (Z.of_nat states <= n + 1)%Z ->
  rate_vectors mu gamma warm_standby n m k states = Return (b, d) ->
  Forall not_negative d.
Proof.
  intros Hmu Hm Hn Hrun. unfold rate_vectors in Hrun.
  refine (for_each_return _ (fun st => Forall not_negative (snd st))
            _ _ _ _ _ Hrun).
  - intros s i s' Hi Hd Hstep. apply in_seq in Hi.
    apply rates_step_writes in Hstep. destruct Hstep as (x & y & -> & Hy).
    cbn [fst snd]. apply Forall_insert; [exact Hd|].
    destruct warm_standby; [|destruct (n - Z.of_nat i >=? m)%Z].
    + eapply int_times_not_negative; [|exact Hmu|exact Hy]. lia.
    + eapply int_times_not_negative; [|exact Hmu|exact Hy]. lia.
    + subst y. reflexivity.
  - apply zeros_not_negative.
Qed.



End Rates.

(** ** The recurrence *)

Section Recurrence.

Import B64.

Variables (birth_rates death_rates : list float).

Lemma get_not_negative (a : list float) (i : nat) :
  Forall not_negative a -> not_negative (get a i).
Proof.
  intros Ha. unfold get. destruct (a !! i) as [x|] eqn:E; [|reflexivity].
  simpl. rewrite Forall_lookup in Ha. eapply Ha. exact E.
Qed.

Lemma unnormalized_length (states : nat) :
  length (unnormalized birth_rates death_rates states) = states.
Proof.
  unfold unnormalized.
  apply (fold_left_invariant _ (fun pi => length pi = states)).
  - intros pi i _ Hlen. unfold pi_step.
    destruct (ltb zero (get birth_rates i)); rewrite length_insert; exact Hlen.
  - rewrite length_insert. unfold zeros. apply length_replicate.
Qed.

Lemma unnormalized_not_negative (states : nat) :
  Forall not_negative death_rates ->
  Forall not_negative (unnormalized birth_rates death_rates states).
Proof.
  intros Hd. unfold unnormalized.
  apply (fold_left_invariant _ (Forall not_negative)).
  - intros pi i _ Hpi. unfold pi_step.
    destruct (ltb zero (get birth_rates i)) eqn:E.
    + apply Forall_insert; [exact Hpi|].
      apply div_not_negative; [|apply positive_unsigned; exact E].
      apply mul_not_negative; apply get_not_negative; assumption.
    + apply Forall_insert; [exact Hpi | reflexivity].
  - apply Forall_insert; [apply zeros_not_negative | reflexivity].
Qed.

Lemma unnormalized_head (states : nat) :
  (1 <= states)%nat ->
  exists rest, unnormalized birth_rates death_rates states = one :: rest.
Proof.
  intros Hs. unfold unnormalized.
  apply (fold_left_invariant _ (fun pi => exists rest, pi = one :: rest)).
  - intros pi i Hi [rest ->]. apply in_seq in Hi. unfold pi_step.
    destruct i as [|i]; [lia|].
    destruct (ltb zero (get birth_rates (S i))); cbn [insert list_insert];
      eexists; reflexivity.
  - destruct states as [|states]; [lia|]. eexists. reflexivity.
Qed.


End Recurrence.

(** ** The solver in binary64 *)

Section SolverB64.

Import B64.

Variables (mu gamma : float) (warm_standby : bool) (n m k : Z).

Lemma leb_zero_not_negative (x : float) : leb zero x = true -> not_negative x.
Proof.
  destruct x as [[|]|[|]| |[|] mx ex]; simpl; intros H;
    (reflexivity || discriminate H).
Qed.


Lemma recurrence_outcome :
  (0 <= n)%Z ->
  recurrence_vector mu gamma warm_standby n m k = Throw OverflowError
  \/ exists b d,
      rate_vectors mu gamma warm_standby n m k (Z.to_nat (n + 1))
      = Return (b, d)
      /\ recurrence_vector mu gamma warm_standby n m k
         = Return (unnormalized b d (Z.to_nat (n + 1))).
Proof.
  intros Hn. unfold recurrence_vector.
  destruct (Z.ltb_spec (n + 1) 0) as [?|_]; [lia|].
  destruct (rate_vectors mu gamma warm_standby n m k (Z.to_nat (n + 1)))
    as [[b d]|e] eqn:E; cbn [bind].
  - right. exists b, d. split; [reflexivity|].
    destruct (Z.eqb_spec (n + 1) 0) as [?|_]; [lia|]. reflexivity.
  - left. apply rate_vectors_error in E. subst e. reflexivity.
Qed.

Lemma solver_outcome :
  (0 <= n)%Z ->
  birth_death_stationary_distribution mu gamma warm_standby n m k
  = Throw OverflowError
  \/ exists b d,
      rate_vectors mu gamma warm_standby n m k (Z.to_nat (n + 1))
      = Return (b, d)
      /\ birth_death_stationary_distribution mu gamma warm_standby n m k
         = Return (normalize (unnormalized b d (Z.to_nat (n + 1)))).
Proof.
  intros Hn. unfold birth_death_stationary_distribution.
  destruct (recurrence_outcome Hn) as [-> | (b & d & Hr & ->)].
  - left. reflexivity.
  - right. exists b, d. auto.
Qed.


Lemma normalize_length (pi : list float) : length (normalize pi) = length pi.
Proof. apply length_map. Qed.

Lemma normalize_not_negative (x : float) (rest : list float) :
  unsigned x -> Forall not_negative (x :: rest) ->
  Forall not_negative (normalize (x :: rest)).
Proof.
  intros Hx Hall. unfold normalize.
  assert (Hs : unsigned (np_sum (x :: rest))).
  { apply np_sum_unsigned; [exact Hx|]. inversion Hall; assumption. }
  apply List.Forall_forall. intros y Hy. apply in_map_iff in Hy.
  destruct Hy as [z [<- Hz]]. apply div_not_negative; [|exact Hs].
  rewrite List.Forall_forall in Hall. apply Hall. exact Hz.
Qed.

(** Only the failure rate decides the signs: the guard [birth_rates[i] > 0]
    keeps a negative or NaN repair rate out of the recurrence. *)
Lemma solver_not_negative (b d : list float) :
  leb zero mu = true -> (0 <= m)%Z -> (0 <= n)%Z ->
  rate_vectors mu gamma warm_standby n m k (Z.to_nat (n + 1)) = Return (b, d) ->
  Forall not_negative (normalize (unnormalized b d (Z.to_nat (n + 1)))).
Proof.
  intros Hmu Hm Hn Hr.
  assert (Hd : Forall not_negative d).
  { eapply rate_vectors_not_negative; [| | |exact Hr];
      [apply leb_zero_not_negative; exact Hmu | lia | lia]. }
  pose proof (unnormalized_not_negative b d (Z.to_nat (n + 1)) Hd) as Hpi.
  destruct (unnormalized_head b d (Z.to_nat (n + 1))) as [rest Hhead]; [lia|].
  rewrite Hhead in *. apply normalize_not_negative; [reflexivity | exact Hpi].
Qed.


End SolverB64.

Section SolverGuarantees.

Import B64.







(** C6, as the code has it.  The solver does not guard [pi /= pi_sum].
    For every [n >= 0], unless an int is too large for a float
    ([OverflowError]), it returns the recurrence vector divided entrywise
    by its sum and signals nothing; when that sum is a zero, every entry
    of the result is an infinity or NaN. *)
Theorem normalization_divides_without_guard
  (mu gamma : float) (warm_standby : bool) (n m k : Z) :
  (0 <= n)%Z ->
  (recurrence_vector mu gamma warm_standby n m k = Throw OverflowError
   /\ birth_death_stationary_distribution mu gamma warm_standby n m k
      = Throw OverflowError)
  \/ exists pi : list float,
      recurrence_vector mu gamma warm_standby n m k = Return pi
      /\ birth_death_stationary_distribution mu gamma warm_standby n m k
         = Return (map (fun x => div x (np_sum pi)) pi)
      /\ (is_zero (np_sum pi) = true ->
          Forall (fun x => is_finite x = false)
                 (map (fun x => div x (np_sum pi)) pi)).
Proof.
  intros Hn. unfold birth_death_stationary_distribution.
  destruct (recurrence_outcome mu gamma warm_standby n m k Hn)
    as [-> | (b & d & _ & ->)]; [left; auto|].
  right. eexists. split; [reflexivity|]. split; [reflexivity|].
  intros Hz. apply List.Forall_forall. intros y Hy.
  apply in_map_iff in Hy. destruct Hy as [x [<- _]].
  apply div_by_zero_not_finite. exact Hz.
Qed.

Lemma normalization_divides_without_guard_witness :
  (0 <= 1)%Z
  /\ ((recurrence_vector (decimal (-1) 1) one true 1 1 1 = Throw OverflowError
       /\ birth_death_stationary_distribution (decimal (-1) 1) one true 1 1 1
          = Throw OverflowError)
      \/ exists pi : list float,
          recurrence_vector (decimal (-1) 1) one true 1 1 1 = Return pi
          /\ birth_death_stationary_distribution
               (decimal (-1) 1) one true 1 1 1
             = Return (map (fun x => div x (np_sum pi)) pi)
          /\ (is_zero (np_sum pi) = true ->
              Forall (fun x => is_finite x = false)
                     (map (fun x => div x (np_sum pi)) pi))).
Proof.
  assert (Hn : (0 <= 1)%Z) by lia.
  split; [exact Hn|].
  apply (normalization_divides_without_guard
           (decimal (-1) 1) one true 1 1 1 Hn).
Defined.

(** C6, as stated, fails: with [mu = -1], [gamma = 1], [n = m = k = 1] the
    vector before normalisation is [[1, -1]], its sum is exactly zero, and
    the solver raises nothing: it divides and returns [[inf, -inf]]. *)
Lemma zero_sum_division_is_performed :
  recurrence_vector (decimal (-1) 1) one true 1 1 1
  = Return [one; S754_finite true 4503599627370496 (-52)]
  /\ np_sum [one; S754_finite true 4503599627370496 (-52)] = zero
  /\ birth_death_stationary_distribution (decimal (-1) 1) one true 1 1 1
     = Return [S754_infinity false; S754_infinity true].
Proof. repeat split; vm_compute; reflexivity. Qed.

End SolverGuarantees.

Section ModesAndCrews.

Import B64.












End ModesAndCrews.

(** ** The search in binary64 *)

Section SearchB64.

Import B64.

Variables (mu gamma : float) (warm_standby : bool) (m : Z).
Variables (component_cost repairman_cost downtime_cost : float).

Local Abbreviation cost :=
  (config_cost mu gamma warm_standby m
               component_cost repairman_cost downtime_cost).
Local Abbreviation inner :=
  (inner_step mu gamma warm_standby m
              component_cost repairman_cost downtime_cost).
Local Abbreviation outer :=
  (outer_step mu gamma warm_standby m
              component_cost repairman_cost downtime_cost).
Local Abbreviation invariant :=
  (scanned mu gamma warm_standby m
           component_cost repairman_cost downtime_cost).

Lemma ltb_below_inf (x y : float) : ltb x y = true -> ltb x inf = true.
Proof.
  destruct x as [[|]|[|]| |[|] mx ex], y as [[|]|[|]| |[|] my ey];
    simpl; intros H; (reflexivity || discriminate H).
Qed.

Lemma inner_as_pairs_b64 (n : Z) (k_range : list Z) (st : best) :
  for_each (inner n) k_range st
  = for_each (fun st p => inner (fst p) st (snd p)) (map (pair n) k_range) st.
Proof.
  revert st. induction k_range as [|k ks IH]; intros st; simpl.
  - reflexivity.
  - destruct (inner n st k) as [st'|e]; simpl; [apply IH | reflexivity].
Qed.

Lemma loops_as_grid_b64 (n_range k_range : list Z) (st : best) :
  for_each (outer k_range) n_range st
  = for_each (fun st p => inner (fst p) st (snd p)) (grid n_range k_range) st.
Proof.
  revert st. induction n_range as [|n ns IH]; intros st.
  - reflexivity.
  - unfold grid. cbn [flat_map for_each]. rewrite for_each_app_outcome.
    unfold outer_step at 1. rewrite inner_as_pairs_b64.
    destruct (for_each _ (map (pair n) k_range) st) as [st'|e]; simpl;
      [apply IH | reflexivity].
Qed.

(** The running minimum is replaced only by a strictly smaller cost. *)
Lemma inner_step_cases_b64 (n k : Z) (st st' : best) :
  inner n st k = Return st' ->
  ((n < m)%Z /\ st' = st)
  \/ ((m <= n)%Z
      /\ exists c, cost n k = Return c
                   /\ ((ltb c (snd st) = true /\ st' = (Some n, Some k, c))
                       \/ (ltb c (snd st) = false /\ st' = st))).
Proof.
  destruct st as [[best_n best_k] min_cost]. unfold inner_step.
  destruct (Z.gtb_spec m n) as [Hlt|Hge];
    [intros [= <-]; left; split; [lia | reflexivity]|].
  destruct (cost n k) as [c|e]; cbn [bind]; [|discriminate].
  right. split; [exact Hge|]. exists c. split; [reflexivity|].
  destruct (ltb c min_cost) eqn:E; injection H as <-; cbn [snd]; auto.
Qed.

Lemma scan_step_b64 (seen : list (Z * Z)) (st st' : best) (n k : Z) :
  invariant seen st -> inner n st k = Return st' ->
  invariant (seen ++ [(n, k)]) st'.
Proof.
  intros Hinv Hstep. apply inner_step_cases_b64 in Hstep.
  destruct st as [[best_n best_k] min_cost]. cbn [snd] in Hstep.
  destruct Hinv as [Hmin Hsel].
  assert (Hkeep : forall c0 : float,
             (forall c, (m <= n)%Z -> cost n k = Return c ->
                        ltb c min_cost = false) ->
             invariant (seen ++ [(n, k)]) (best_n, best_k, min_cost)).
  { intros _ Hnew. split.
    - intros n' k' c' Hin Hn' Hc'. apply in_app_or in Hin.
      destruct Hin as [Hin|[[= <- <-]|[]]]; [eapply Hmin; eassumption|].
      apply Hnew; assumption.
    - destruct Hsel as [Hnone | (n0 & k0 & before & after & H)];
        [left; exact Hnone|].
      destruct H as (Hbn & Hbk & Hseen & Hn0 & Hc0 & Hlt & Hb).
      right. exists n0, k0, before, (after ++ [(n, k)]).
      repeat (split; [assumption || (rewrite Hseen, <- app_assoc; reflexivity)|]).
      exact Hb. }
  destruct Hstep as [[Hlt ->] | [Hge [c [Hc [[Hlt ->] | [Hnlt ->]]]]]].
  - apply (Hkeep zero). intros c Hn. lia.
  - split.
    + intros n' k' c' Hin Hn' Hc'. apply in_app_or in Hin.
      destruct Hin as [Hin|[[= <- <-]|[]]].
      * destruct (ltb c' c) eqn:E; [|reflexivity].
        pose proof (ltb_trans _ _ _ E Hlt) as Hcontra.
        rewrite (Hmin _ _ _ Hin Hn' Hc') in Hcontra. discriminate.
      * rewrite Hc in Hc'. injection Hc' as <-. apply ltb_irrefl.
    + right. exists n, k, seen, [].
      repeat (split; [assumption || reflexivity|]).
      split; [eapply ltb_below_inf; exact Hlt|].
      intros n' k' c' Hin Hn' Hc'.
      destruct (is_nan c') eqn:Enan; [left; reflexivity|]. right.
      eapply ltb_le_trans; [exact Hlt | | exact Enan].
      eapply Hmin; eassumption.
  - apply (Hkeep zero). intros c' _ Hc'. rewrite Hc in Hc'.
    injection Hc' as <-. exact Hnlt.
Qed.

Lemma scan_all_b64 (todo seen : list (Z * Z)) (st st' : best) :
  invariant seen st ->
  for_each (fun st p => inner (fst p) st (snd p)) todo st = Return st' ->
  invariant (seen ++ todo) st'.
Proof.
  revert seen st. induction todo as [|[n k] todo IH]; intros seen st Hinv Hrun.
  - simpl in Hrun. injection Hrun as <-. rewrite app_nil_r. exact Hinv.
  - cbn [for_each fst snd] in Hrun.
    destruct (inner n st k) as [st1|e] eqn:E; cbn [bind] in Hrun;
      [|discriminate].
    pose proof (scan_step_b64 seen st st1 n k Hinv E) as Hinv1.
    pose proof (IH _ _ Hinv1 Hrun) as Hinv'.
    rewrite <- app_assoc in Hinv'. exact Hinv'.
Qed.

Lemma search_scanned_b64 (n_range k_range : list Z) (st : best) :
  optimize_components_and_repairmen
    mu gamma warm_standby m component_cost repairman_cost downtime_cost
    n_range k_range = Return st ->
  invariant (grid n_range k_range) st.
Proof.
  unfold optimize_components_and_repairmen. rewrite loops_as_grid_b64.
  intros Hrun. apply (scan_all_b64 _ [] _ _) in Hrun; [exact Hrun|].
  split; [intros n k c []|]. left. auto.
Qed.

Lemma skipped_row (n : Z) (k_range : list Z) (st : best) :
  (n < m)%Z -> outer k_range st n = Return st.
Proof.
  intros Hn. unfold outer_step.
  induction k_range as [|k ks IH]; [reflexivity|].
  cbn [for_each]. destruct st as [[best_n best_k] min_cost].
  unfold inner_step at 1.
  destruct (Z.gtb_spec m n) as [_|?]; [|lia]. cbn [bind]. exact IH.
Qed.

End SearchB64.

Section SearchGuarantees.

Import B64.

(** C4, as the code has it.  The optimizer replaces its running minimum
    only when the new cost is strictly smaller.  Hence, with [n_range] and
    [k_range] ascending, whatever it returns: no feasible pair costs
    strictly less than the returned [min_cost]; if some feasible pair costs
    less than [inf], a pair is returned; and a feasible pair whose cost
    equals the returned [min_cost] comes no earlier than the returned pair
    in the order ascending [n], then ascending [k]. *)
Theorem optimizer_keeps_first_of_equal_costs
  (mu gamma : float) (warm_standby : bool) (m : Z)
  (component_cost repairman_cost downtime_cost : float)
  (n_range k_range : list Z)
  (best_n best_k : option Z) (min_cost : float) (n1 k1 : Z) (c1 : float) :
  let cost := config_cost mu gamma warm_standby m
                          component_cost repairman_cost downtime_cost in
  StronglySorted Z.lt n_range -> StronglySorted Z.lt k_range ->
  optimize_components_and_repairmen
    mu gamma warm_standby m component_cost repairman_cost downtime_cost
    n_range k_range = Return (best_n, best_k, min_cost) ->
  In n1 n_range -> In k1 k_range -> (m <= n1)%Z ->
  cost n1 k1 = Return c1 ->
  (forall n k st st',
      inner_step mu gamma warm_standby m
                 component_cost repairman_cost downtime_cost n st k
      = Return st' ->
      st' = st
      \/ exists c, cost n k = Return c /\ ltb c (snd st) = true
                   /\ st' = (Some n, Some k, c))
  /\ ltb c1 min_cost = false
  /\ (ltb c1 inf = true ->
      exists n k : Z,
        best_n = Some n /\ best_k = Some k
        /\ In n n_range /\ In k k_range /\ (m <= n)%Z
        /\ cost n k = Return min_cost
        /\ (eqb c1 min_cost = true ->
            (n < n1)%Z \/ (n = n1 /\ (k <= k1)%Z))).
Proof.
  intros cost Hsn Hsk Hrun Hn1 Hk1 Hfeas Hc1.
  split.
  { intros n k st st' Hstep.
    apply inner_step_cases_b64 in Hstep.
    destruct Hstep as [[_ ->] | [_ [c [Hc [[Hlt ->] | [_ ->]]]]]];
      [left; reflexivity | | left; reflexivity].
    right. exists c. auto. }
  apply search_scanned_b64 in Hrun. destruct Hrun as [Hmin Hsel].
  assert (Hg1 : In (n1, k1) (grid n_range k_range)) by (apply grid_in; auto).
  split; [exact (Hmin _ _ _ Hg1 Hfeas Hc1)|].
  intros Hfinite.
  destruct Hsel as [(_ & _ & ->) | (n & k & before & after & H)].
  { rewrite (Hmin _ _ _ Hg1 Hfeas Hc1) in Hfinite. discriminate. }
  destruct H as (-> & -> & Hseen & Hn & Hc & _ & Hb).
  assert (Hin : In (n, k) (grid n_range k_range))
    by (rewrite Hseen; apply in_elt).
  apply grid_in in Hin. destruct Hin as [Hin_n Hin_k].
  exists n, k. repeat (split; [assumption || reflexivity|]).
  intros Heq.
  pose proof (grid_sorted n_range k_range Hsn Hsk) as Hsorted.
  rewrite Hseen in Hg1, Hsorted.
  apply in_app_or in Hg1. destruct Hg1 as [Hg1|[Hg1|Hg1]].
  - destruct (Hb _ _ _ Hg1 Hfeas Hc1) as [Hnan|Hlt].
    + rewrite (eqb_not_nan _ _ Heq) in Hnan. discriminate.
    + rewrite (eqb_not_ltb _ _ Heq) in Hlt. discriminate.
  - injection Hg1 as -> ->. right. split; [reflexivity | lia].
  - pose proof (sorted_after _ _ _ _ Hsorted Hg1) as Hlex.
    destruct Hlex as [Hlex|[Hlex1 Hlex2]]; simpl in *; [left|right]; lia.
Qed.

(** Two feasible pairs of equal cost: both cost [0.0] after rounding, and
    the first one, [(2, 1)], is returned. *)
Lemma optimizer_keeps_first_of_equal_costs_witness :
  StronglySorted Z.lt [2]%Z /\ StronglySorted Z.lt [1; 2]%Z
  /\ optimize_components_and_repairmen
       (pow2 (-30)) one true 1 zero zero one [2]%Z [1; 2]%Z
     = Return (Some 2%Z, Some 1%Z, zero)
  /\ config_cost (pow2 (-30)) one true 1 zero zero one 2 2 = Return zero
  /\ ltb zero zero = false
  /\ exists n k : Z,
      Some 2%Z = Some n /\ Some 1%Z = Some k
      /\ In n [2]%Z /\ In k [1; 2]%Z /\ (1 <= n)%Z
      /\ config_cost (pow2 (-30)) one true 1 zero zero one n k = Return zero
      /\ (eqb zero zero = true -> (n < 2)%Z \/ (n = 2%Z /\ (k <= 2)%Z)).
Proof.
  assert (H1 : StronglySorted Z.lt [2]%Z) by (repeat constructor).
  assert (H2 : StronglySorted Z.lt [1; 2]%Z) by (repeat constructor; lia).
  assert (H3 : optimize_components_and_repairmen
                 (pow2 (-30)) one true 1 zero zero one [2]%Z [1; 2]%Z
               = Return (Some 2%Z, Some 1%Z, zero))
    by (vm_compute; reflexivity).
  assert (H4 : In 2%Z [2]%Z) by (simpl; auto).
  assert (H5 : In 2%Z [1; 2]%Z) by (simpl; auto).
  assert (H6 : (1 <= 2)%Z) by lia.
  assert (H7 : config_cost (pow2 (-30)) one true 1 zero zero one 2 2
               = Return zero) by (vm_compute; reflexivity).
  split; [exact H1|]. split; [exact H2|]. split; [exact H3|].
  split; [exact H7|].
  destruct (optimizer_keeps_first_of_equal_costs
              (pow2 (-30)) one true 1 zero zero one [2]%Z [1; 2]%Z
              (Some 2%Z) (Some 1%Z) zero 2 2 zero H1 H2 H3 H4 H5 H6 H7)
    as (_ & Hmin & Hsel).
  split; [exact Hmin|]. apply Hsel. reflexivity.
Defined.

(** C4, as stated, fails when the tie is at [inf]: with
    [component_cost = 1e308], [n_range = [2]] and [k_range = [1, 2]] both
    feasible pairs cost [inf] (the product [1e308 * 2] overflows), [inf] is
    not strictly below the initial [min_cost = inf], and neither pair is
    returned. *)
Lemma tie_at_infinite_cost_selects_nothing :
  StronglySorted Z.lt [2]%Z /\ StronglySorted Z.lt [1; 2]%Z
  /\ config_cost (decimal 1 100) (decimal 1 10) true 1
                 (decimal (10 ^ 308) 1) zero zero 2 1 = Return inf
  /\ config_cost (decimal 1 100) (decimal 1 10) true 1
                 (decimal (10 ^ 308) 1) zero zero 2 2 = Return inf
  /\ eqb inf inf = true
  /\ is_finite (decimal (10 ^ 308) 1) = true
  /\ optimize_components_and_repairmen
       (decimal 1 100) (decimal 1 10) true 1
       (decimal (10 ^ 308) 1) zero zero [2]%Z [1; 2]%Z
     = Return (None, None, inf).
Proof.
  split; [repeat constructor|]. split; [repeat constructor; lia|].
  repeat split; vm_compute; reflexivity.
Qed.

(** C5, as the code has it.  If no [n] of [n_range] reaches
    [requiredComponents], the optimizer returns [best_n = None] and
    [best_k = None] (Python's [None], never a number such as zero), and
    [min_cost] is returned as the number [float('inf')]. *)
Theorem infeasible_search_returns_none_and_inf
  (mu gamma : float) (warm_standby : bool) (m : Z)
  (component_cost repairman_cost downtime_cost : float)
  (n_range k_range : list Z) :
  (forall n, In n n_range -> (n < m)%Z) ->
  optimize_components_and_repairmen
    mu gamma warm_standby m component_cost repairman_cost downtime_cost
    n_range k_range
  = Return (None, None, inf).
Proof.
  unfold optimize_components_and_repairmen.
  generalize (@None Z, @None Z, inf). 
  induction n_range as [|n ns IH]; intros st Hinf; [reflexivity|].
  cbn [for_each]. rewrite skipped_row by (apply Hinf; left; reflexivity).
  cbn [bind]. apply IH. intros n' Hn'. apply Hinf. right. exact Hn'.
Qed.

Lemma infeasible_search_returns_none_and_inf_witness :
  (forall n, In n [1; 2]%Z -> (n < 3)%Z)
  /\ optimize_components_and_repairmen
       (decimal 1 100) (decimal 1 10) true 3
       (decimal 5 1) (decimal 10 1) (decimal 1000 1) [1; 2]%Z [1; 2; 3]%Z
     = Return (None, None, inf).
Proof.
  assert (H : forall n, In n [1; 2]%Z -> (n < 3)%Z)
    by (intros n [<-|[<-|[]]]; lia).
  split; [exact H|].
  apply (infeasible_search_returns_none_and_inf
           (decimal 1 100) (decimal 1 10) true 3
           (decimal 5 1) (decimal 10 1) (decimal 1000 1)
           [1; 2]%Z [1; 2; 3]%Z H).
Defined.

(** C5, as stated, fails in its first half: with [n_range = [1, 2]] below
    [m = 3] the third component of the result is a float, the numeric
    sentinel [float('inf')] (it compares greater than [1.0]), not an
    absent value. *)
Lemma infeasible_min_cost_is_numeric_inf :
  exists min_cost : float,
    optimize_components_and_repairmen
      (decimal 1 100) (decimal 1 10) true 3
      (decimal 5 1) (decimal 10 1) (decimal 1000 1) [1; 2]%Z [1; 2; 3]%Z
    = Return (None, None, min_cost)
    /\ min_cost = S754_infinity false
    /\ is_nan min_cost = false
    /\ ltb one min_cost = true.
Proof. eexists. repeat split. Qed.

End SearchGuarantees.

(** * Further properties of the program in binary64 *)

Section SearchExtras.

Import B64.

(** X13.  The optimizer visits [n_range] and [k_range] in the order given
    (it does not sort them), and a returned pair is the first, in visiting
    order, of minimal computed cost: it was visited, its cost is the
    returned [min_cost], below [inf]; every feasible pair visited before it
    has a cost that is NaN or strictly larger; and no feasible pair at all
    has a strictly smaller cost. *)
Theorem search_returns_first_strict_minimum
  (mu gamma : float) (warm_standby : bool) (m : Z)
  (component_cost repairman_cost downtime_cost : float)
  (n_range k_range : list Z) (n k : Z) (min_cost : float) :
  let cost := config_cost mu gamma warm_standby m
                          component_cost repairman_cost downtime_cost in
  optimize_components_and_repairmen
    mu gamma warm_standby m component_cost repairman_cost downtime_cost
    n_range k_range = Return (Some n, Some k, min_cost) ->
  exists before after : list (Z * Z),
    grid n_range k_range = before ++ (n, k) :: after
    /\ (m <= n)%Z
    /\ cost n k = Return min_cost
    /\ ltb min_cost inf = true
    /\ (forall n' k' c', In (n', k') before -> (m <= n')%Z ->
          cost n' k' = Return c' ->
          is_nan c' = true \/ ltb min_cost c' = true)
    /\ (forall n' k' c', In n' n_range -> In k' k_range -> (m <= n')%Z ->
          cost n' k' = Return c' -> ltb c' min_cost = false).
Proof.
  intros cost Hrun. apply search_scanned_b64 in Hrun.
  destruct Hrun as [Hmin Hsel].
  destruct Hsel as [(Hnone & _) | (n0 & k0 & before & after & H)];
    [discriminate Hnone|].
  destruct H as ([= <-] & [= <-] & Hseen & Hn & Hc & Hlt & Hb).
  exists before, after. repeat (split; [assumption|]).
  intros n' k' c' Hn' Hk' Hfeas Hc'.
  apply (Hmin n' k' c'); [apply grid_in; auto | exact Hfeas | exact Hc'].
Qed.

Lemma search_returns_first_strict_minimum_witness :
  optimize_components_and_repairmen
    (decimal 1 100) (decimal 1 10) true 3
    (decimal 5 1) (decimal 10 1) (decimal 1000 1) [5; 3; 4]%Z [2; 1; 2]%Z
  = Return (Some 5%Z, Some 2%Z, S754_finite false 7776190776920494 (-47))
  /\ exists before after : list (Z * Z),
      grid [5; 3; 4]%Z [2; 1; 2]%Z = before ++ (5, 2)%Z :: after
      /\ forall n' k' c', In n' [5; 3; 4]%Z -> In k' [2; 1; 2]%Z ->
           (3 <= n')%Z ->
           config_cost (decimal 1 100) (decimal 1 10) true 3
                       (decimal 5 1) (decimal 10 1) (decimal 1000 1) n' k'
           = Return c' ->
           ltb c' (S754_finite false 7776190776920494 (-47)) = false.
Proof.
  assert (H : optimize_components_and_repairmen
                (decimal 1 100) (decimal 1 10) true 3
                (decimal 5 1) (decimal 10 1) (decimal 1000 1)
                [5; 3; 4]%Z [2; 1; 2]%Z
              = Return (Some 5%Z, Some 2%Z,
                        S754_finite false 7776190776920494 (-47)))
    by (vm_compute; reflexivity).
  split; [exact H|].
  destruct (search_returns_first_strict_minimum _ _ _ _ _ _ _ _ _ _ _ _ H)
    as (before & after & Hgrid & _ & _ & _ & _ & Hall).
  exists before, after. split; [exact Hgrid | exact Hall].
Defined.

(** X14.  Whenever the optimizer returns, it returns [(None, None, inf)]
    exactly when no feasible pair has a cost below [inf]: every feasible
    cost is NaN or [inf] (or there is no feasible pair).  A NaN cost is
    skipped without a message. *)
Theorem search_returns_none_iff_no_cost_below_inf
  (mu gamma : float) (warm_standby : bool) (m : Z)
  (component_cost repairman_cost downtime_cost : float)
  (n_range k_range : list Z) (st : best) :
  let cost := config_cost mu gamma warm_standby m
                          component_cost repairman_cost downtime_cost in
  optimize_components_and_repairmen
    mu gamma warm_standby m component_cost repairman_cost downtime_cost
    n_range k_range = Return st ->
  st = (None, None, inf)
  <-> forall n k c, In n n_range -> In k k_range -> (m <= n)%Z ->
        cost n k = Return c -> ltb c inf = false.
Proof.
  intros cost Hrun. apply search_scanned_b64 in Hrun.
  destruct st as [[best_n best_k] min_cost]. destruct Hrun as [Hmin Hsel].
  split.
  - intros [= -> -> ->] n k c Hn Hk Hfeas Hc.
    apply (Hmin n k c); [apply grid_in; auto | exact Hfeas | exact Hc].
  - intros Hall.
    destruct Hsel as [(-> & -> & ->) | (n & k & before & after & H)];
      [reflexivity|].
    destruct H as (_ & _ & Hseen & Hn & Hc & Hlt & _).
    assert (Hin : In (n, k) (grid n_range k_range))
      by (rewrite Hseen; apply in_elt).
    apply grid_in in Hin. destruct Hin as [Hin_n Hin_k].
    rewrite (Hall n k min_cost Hin_n Hin_k Hn Hc) in Hlt. discriminate Hlt.
Qed.

(** On this valid input every cost overflows to NaN and nothing is
    selected, although every pair is feasible. *)
Lemma search_returns_none_iff_no_cost_below_inf_witness :
  optimize_components_and_repairmen
    (decimal (10 ^ 300) 1) (decimal 1 (10 ^ 10)) false 2 one one one
    [2; 3; 4]%Z [1; 2]%Z
  = Return (None, None, inf)
  /\ forall n k c, In n [2; 3; 4]%Z -> In k [1; 2]%Z -> (2 <= n)%Z ->
       config_cost (decimal (10 ^ 300) 1) (decimal 1 (10 ^ 10)) false 2
                   one one one n k = Return c ->
       ltb c inf = false.
Proof.
  assert (H : optimize_components_and_repairmen
                (decimal (10 ^ 300) 1) (decimal 1 (10 ^ 10)) false 2
                one one one [2; 3; 4]%Z [1; 2]%Z
              = Return (None, None, inf)) by (vm_compute; reflexivity).
  split; [exact H|].
  apply (search_returns_none_iff_no_cost_below_inf _ _ _ _ _ _ _ _ _ _ H).
  reflexivity.
Defined.

(** X8.  [system_availability] does not reject [m > n].  For [n >= 0]
    with [m = n + 1] or [m >= 2n + 2] the slice [pi[:n-m+1]] is empty, and
    unless the solver raised [OverflowError] the result is [0.0]. *)
Theorem availability_of_empty_slice_is_zero
  (mu gamma : float) (warm_standby : bool) (n m k : Z) :
  (0 <= n)%Z -> m = (n + 1)%Z \/ (2 * n + 2 <= m)%Z ->
  system_availability mu gamma warm_standby n m k = Throw OverflowError
  \/ system_availability mu gamma warm_standby n m k = Return zero.
Proof.
  intros Hn Hm. unfold system_availability.
  destruct (solver_outcome mu gamma warm_standby n m k Hn)
    as [-> | (b & d & _ & ->)]; [left; reflexivity|].
  right. cbn [bind]. unfold slice_to.
  rewrite normalize_length, unnormalized_length.
  destruct Hm as [-> | Hm].
  - replace (n - (n + 1) + 1)%Z with 0%Z by lia. reflexivity.
  - destruct (Z.leb_spec 0 (n - m + 1)) as [?|_]; [lia|].
    replace (Z.to_nat (n + 1) - Z.to_nat (- (n - m + 1)))%nat with 0%nat
      by lia.
    reflexivity.
Qed.

Lemma availability_of_empty_slice_is_zero_witness :
  (0 <= 3)%Z /\ (4%Z = (3 + 1)%Z \/ (2 * 3 + 2 <= 4)%Z)
  /\ (system_availability (decimal 1 2) (decimal 1 3) true 3 4 2
      = Throw OverflowError
      \/ system_availability (decimal 1 2) (decimal 1 3) true 3 4 2
         = Return zero).
Proof.
  assert (H1 : (0 <= 3)%Z) by lia.
  assert (H2 : 4%Z = (3 + 1)%Z \/ (2 * 3 + 2 <= 4)%Z) by (left; reflexivity).
  split; [exact H1|]. split; [exact H2|].
  apply (availability_of_empty_slice_is_zero
           (decimal 1 2) (decimal 1 3) true 3 4 2 H1 H2).
Defined.

End SearchExtras.

Section SolverExtras.

Import B64.

(** X3.  The signs of the result depend on the failure rate only.  With
    [mu >= 0], [m >= 0] and [n >= 0], for any repair rate (negative or NaN
    included) and any crew size, the solver either raises [OverflowError]
    (an int too large for a float) or returns [n + 1] entries none of which
    is negative. *)
Theorem entries_never_negative_for_any_repair_rate
  (mu gamma : float) (warm_standby : bool) (n m k : Z) :
  leb zero mu = true -> (0 <= m)%Z -> (0 <= n)%Z ->
  birth_death_stationary_distribution mu gamma warm_standby n m k
  = Throw OverflowError
  \/ exists pi : list float,
      birth_death_stationary_distribution mu gamma warm_standby n m k
      = Return pi
      /\ length pi = Z.to_nat (n + 1)
      /\ Forall (fun x => ltb x zero = false) pi.
Proof.
  intros Hmu Hm Hn.
  destruct (solver_outcome mu gamma warm_standby n m k Hn)
    as [Herr | (b & d & Hr & Hsol)]; [left; exact Herr|].
  right. eexists. split; [exact Hsol|]. split.
  - rewrite normalize_length. apply unnormalized_length.
  - apply (solver_not_negative mu gamma warm_standby n m k b d);
      assumption.
Qed.

Lemma entries_never_negative_for_any_repair_rate_witness :
  leb zero (decimal 1 2) = true /\ (0 <= 0)%Z /\ (0 <= 3)%Z
  /\ (birth_death_stationary_distribution
        (decimal 1 2) (decimal (-1) 3) true 3 0 (-2)
      = Throw OverflowError
      \/ exists pi : list float,
          birth_death_stationary_distribution
            (decimal 1 2) (decimal (-1) 3) true 3 0 (-2)
          = Return pi
          /\ length pi = Z.to_nat (3 + 1)
          /\ Forall (fun x => ltb x zero = false) pi).
Proof.
  assert (H1 : leb zero (decimal 1 2) = true) by reflexivity.
  assert (H2 : (0 <= 0)%Z) by lia.
  assert (H3 : (0 <= 3)%Z) by lia.
  split; [exact H1|]. split; [exact H2|]. split; [exact H3|].
  apply (entries_never_negative_for_any_repair_rate
           (decimal 1 2) (decimal (-1) 3) true 3 0 (-2) H1 H2 H3).
Defined.

(** X9.  For [n + 1 < m < 2n + 2] the slice stop [n - m + 1] is negative
    and Python counts it from the end: unless the solver raised
    [OverflowError], [system_availability] returns the sum of the first
    [2n + 2 - m] entries of the distribution, although the requirement
    [m > n] cannot be met. *)
Theorem availability_wraps_for_negative_stop
  (mu gamma : float) (warm_standby : bool) (n m k : Z) :
  (0 <= n)%Z -> (n + 1 < m < 2 * n + 2)%Z ->
  system_availability mu gamma warm_standby n m k = Throw OverflowError
  \/ exists pi : list float,
      birth_death_stationary_distribution mu gamma warm_standby n m k
      = Return pi
      /\ system_availability mu gamma warm_standby n m k
         = Return (np_sum (take (Z.to_nat (2 * n + 2 - m)) pi)).
Proof.
  intros Hn Hm. unfold system_availability.
  destruct (solver_outcome mu gamma warm_standby n m k Hn)
    as [-> | (b & d & _ & ->)]; [left; reflexivity|].
  right. eexists. split; [reflexivity|]. cbn [bind]. unfold slice_to.
  rewrite normalize_length, unnormalized_length.
  destruct (Z.leb_spec 0 (n - m + 1)) as [?|_]; [lia|].
  replace (Z.to_nat (n + 1) - Z.to_nat (- (n - m + 1)))%nat
    with (Z.to_nat (2 * n + 2 - m)) by lia.
  reflexivity.
Qed.

Lemma availability_wraps_for_negative_stop_witness :
  (0 <= 3)%Z /\ (3 + 1 < 5 < 2 * 3 + 2)%Z
  /\ (system_availability (decimal 1 2) (decimal 1 3) false 3 5 2
      = Throw OverflowError
      \/ exists pi : list float,
          birth_death_stationary_distribution
            (decimal 1 2) (decimal 1 3) false 3 5 2
          = Return pi
          /\ system_availability (decimal 1 2) (decimal 1 3) false 3 5 2
             = Return (np_sum (take (Z.to_nat (2 * 3 + 2 - 5)) pi))).
Proof.
  assert (H1 : (0 <= 3)%Z) by lia.
  assert (H2 : (3 + 1 < 5 < 2 * 3 + 2)%Z) by lia.
  split; [exact H1|]. split; [exact H2|].
  apply (availability_wraps_for_negative_stop
           (decimal 1 2) (decimal 1 3) false 3 5 2 H1 H2).
Defined.

End SolverExtras.
